(** * generate_terminal_gif.py: a shallow embedding and its properties

    The script has four pieces of logic of its own: [hex_to_rgb],
    [get_bg_color], [prepare_transparent_image] and the Pillow fallback
    encoder [create_gif_from_frames] with its [natural_sort_key], plus the
    try/except block of [main] that chooses between the two encoders.

    Python values are modelled as follows.
    - [str] is a list of Unicode code points ([list N]).  The character
      tables ([str.isdigit], [str.lower], the digits accepted by [int]) are
      written out for Basic Latin, Latin-1 Supplement and the two Arabic
      digit rows; statements that quantify over all strings are restricted
      to ASCII, where the tables are complete.
    - exceptions are an error monad [result]; code that also touches the
      file system or prints runs in a state-and-error monad over [world].
    - the TOML tables are [gmap]s keyed by strings. *)

From stdpp Require Import gmap list sorting strings lexico.
From Stdlib Require Import ZArith NArith.

Local Open Scope Z_scope.

(** ** Exceptions *)

Inductive exn :=
  | ValueError
  | TypeError
  | FileNotFoundError
  | UnidentifiedImageError
  | OSError
  | IndexError
  | GenericException.

Inductive result (A : Type) :=
  | Ok (a : A)
  | Raise (e : exn).
Arguments Ok {A} a.
Arguments Raise {A} e.

#[global] Instance result_ret : MRet result := @Ok.
#[global] Instance result_bind : MBind result := λ A B f m,
  match m with Ok a => f a | Raise e => Raise e end.
#[global] Instance result_fmap : FMap result := λ A B f m,
  match m with Ok a => Ok (f a) | Raise e => Raise e end.

Definition of_option {A} (e : exn) (o : option A) : result A :=
  match o with Some a => Ok a | None => Raise e end.

(** ** Python strings *)

Module PyStr.

Abbreviation pystr := (list N).

Fixpoint str (s : string) : pystr :=
  match s with
  | EmptyString => []
  | String a s' => Ascii.N_of_ascii a :: str s'
  end.

Definition between (lo hi c : N) : bool := ((lo <=? c) && (c <=? hi))%N.

Definition is_ascii (c : N) : bool := (c <? 128)%N.

(** The regular-expression class [[0-9]]. *)
Definition is_ascii_digit (c : N) : bool := between 48 57 c.

(** Characters [c] with [c.isdigit()]: Numeric_Type Decimal or Digit.
    Superscript one, two and three are Digit but not Decimal. *)
Definition is_superscript_digit (c : N) : bool :=
  ((c =? 0xB2) || (c =? 0xB3) || (c =? 0xB9))%N.

Definition isdigit_char (c : N) : bool :=
  is_ascii_digit c || is_superscript_digit c
  || between 0x660 0x669 c || between 0x6F0 0x6F9 c.

(** [s.isdigit()]: every character is a digit and there is at least one. *)
Definition isdigit (s : pystr) : bool :=
  match s with
  | [] => false
  | _ => forallb isdigit_char s
  end.

Definition lower_char (c : N) : N :=
  if between 65 90 c then (c + 32)%N
  else if between 0xC0 0xDE c && negb (c =? 0xD7)%N then (c + 32)%N
  else c.

(** [s.lower()] *)
Definition lower (s : pystr) : pystr := map lower_char s.

(** [s.lstrip(ch)] for a one-character argument. *)
Fixpoint lstrip (ch : N) (s : pystr) : pystr :=
  match s with
  | c :: s' => if (c =? ch)%N then lstrip ch s' else s
  | [] => []
  end.

(** [s[i:j]] for [0 <= i <= j]. *)
Definition slice (i j : nat) (s : pystr) : pystr := take (j - i) (drop i s).

(** [s.endswith(suffix)] *)
Definition endswith (suffix s : pystr) : bool :=
  bool_decide (suffix `suffix_of` s).

(** *** [int(text, base)]

    Surrounding white space is skipped, a sign and (for base 16) a [0x]
    prefix are accepted, digits may be separated by single underscores. *)

Definition is_space (c : N) : bool :=
  between 9 13 c || between 28 32 c || (c =? 0x85)%N || (c =? 0xA0)%N.

Definition digit_value (c : N) : option Z :=
  if is_ascii_digit c then Some (Z.of_N c - 48)
  else if between 97 122 c then Some (Z.of_N c - 87)
  else if between 65 90 c then Some (Z.of_N c - 55)
  else if between 0x660 0x669 c then Some (Z.of_N c - 0x660)
  else if between 0x6F0 0x6F9 c then Some (Z.of_N c - 0x6F0)
  else None.

Fixpoint lstrip_space (s : pystr) : pystr :=
  match s with
  | c :: s' => if is_space c then lstrip_space s' else s
  | [] => []
  end.

Definition strip_space (s : pystr) : pystr :=
  rev (lstrip_space (rev (lstrip_space s))).

(** [digits base acc prev_us s]: the digits of [s] in [base] on top of
    [acc]; [prev_us] says that no digit may end here (start of the
    number, or just after an underscore). *)
Fixpoint digits (base acc : Z) (prev_us : bool) (s : pystr) : option Z :=
  match s with
  | [] => if prev_us then None else Some acc
  | c :: s' =>
      if (c =? 95)%N then
        if prev_us then None else digits base acc true s'
      else
        match digit_value c with
        | Some v => if v <? base then digits base (acc * base + v) false s'
                    else None
        | None => None
        end
  end.

Definition strip_prefix (base : Z) (s : pystr) : pystr :=
  match s with
  | zero :: x :: s' =>
      if (base =? 16) && (zero =? 48)%N && ((x =? 120) || (x =? 88))%N then
        match s' with
        | u :: s'' => if (u =? 95)%N then s'' else s'
        | [] => s'
        end
      else s
  | _ => s
  end.

Definition split_sign (s : pystr) : Z * pystr :=
  match s with
  | c :: s' =>
      if (c =? 43)%N then (1, s')
      else if (c =? 45)%N then (-1, s')
      else (1, s)
  | [] => (1, s)
  end.

Definition int (base : Z) (text : pystr) : result Z :=
  let '(sign, s) := split_sign (strip_space text) in
  of_option ValueError (Z.mul sign <$> digits base 0 true (strip_prefix base s)).

End PyStr.
Import PyStr.

(** ** Colours *)

Definition rgb : Type := Z * Z * Z.

(** [hex_to_rgb]:
<<
    hex_color = hex_color.lstrip('#')
    return tuple(int(hex_color[i:i+2], 16) for i in (0, 2, 4))
>> *)
Definition hex_to_rgb (hex_color : pystr) : result rgb :=
  let hex_color := lstrip 35 hex_color in
  r ← int 16 (slice 0 2 hex_color);
  g ← int 16 (slice 2 4 hex_color);
  b ← int 16 (slice 4 6 hex_color);
  Ok (r, g, b).

(** A colour of the form [#RRGGBB]. *)
Definition is_hex_digit (c : N) : bool :=
  is_ascii_digit c || between 97 102 c || between 65 70 c.

Definition is_hex_color (s : pystr) : bool :=
  match s with
  | hash :: h => (hash =? 35)%N && (length h =? 6)%nat && forallb is_hex_digit h
  | [] => false
  end.

(** The inverse direction, ['#%02x%02x%02x' % (r, g, b)], for channels in
    [0, 255]. *)
Definition hex_char (d : Z) : N :=
  if d <? 10 then Z.to_N (48 + d) else Z.to_N (87 + d).

Definition hex2 (v : Z) : pystr := [hex_char (v / 16); hex_char (v mod 16)].

Definition rgb_to_hex (c : rgb) : pystr :=
  let '(r, g, b) := c in 35%N :: hex2 r ++ hex2 g ++ hex2 b.

(** The hexadecimal digits, and what one two-character slice contributes,
    to be checked on all 22 * 22 pairs of them. *)
Definition hex_digit_list : list N :=
  [48; 49; 50; 51; 52; 53; 54; 55; 56; 57;
   97; 98; 99; 100; 101; 102; 65; 66; 67; 68; 69; 70]%N.

Definition pair_roundtrips (h1 h2 : N) : bool :=
  match int 16 [h1; h2] with
  | Ok v => (0 <=? v) && (v <? 256)
            && bool_decide (hex2 v = [lower_char h1; lower_char h2])
  | Raise _ => false
  end.

(** ** Configuration tables

    [general] is the [general] table of gifos_settings.toml (its string
    entries), [local_colors] is ansi_escape_colors.toml, [gifos_colors] the
    table shipped with the library.  A colour table maps a scheme name to
    its sections ([default_colors], [normal_colors], ...), each a map from
    a colour name to a hex string. *)

Abbreviation color_table := (gmap pystr (gmap pystr (gmap pystr pystr))).

Record config := {
  general : gmap pystr pystr;
  local_colors : color_table;
  gifos_colors : color_table;
}.

Definition color_scheme (cfg : config) : pystr :=
  default (str "yoru") (general cfg !! str "color_scheme").

(** [entry.get("default_colors", {}).get("bg")] *)
Definition bg_of (entry : gmap pystr (gmap pystr pystr)) : option pystr :=
  default ∅ (entry !! str "default_colors") !! str "bg".

Definition default_bg_hex : pystr := str "#0c0e0f".

(** [get_bg_color]:
<<
    scheme = general.get("color_scheme", "yoru")
    if scheme in local_colors:
        bg_hex = local_colors[scheme].get("default_colors", {}).get("bg", "#0c0e0f")
    else:
        bg_hex = gifos_colors.get(scheme, {}).get("default_colors", {}).get("bg", "#0c0e0f")
    return hex_to_rgb(bg_hex)
>> *)
Definition get_bg_color (cfg : config) : result rgb :=
  let scheme := color_scheme cfg in
  let bg_hex :=
    match local_colors cfg !! scheme with
    | Some entry => default default_bg_hex (bg_of entry)
    | None =>
        default default_bg_hex (bg_of (default ∅ (gifos_colors cfg !! scheme)))
    end in
  hex_to_rgb bg_hex.

(** Every background colour a table defines is a [#RRGGBB] string. *)
Definition table_valid (t : color_table) : Prop :=
  ∀ scheme entry h,
    t !! scheme = Some entry → bg_of entry = Some h → is_hex_color h = true.

(** Sample tables used to exercise the resolver. *)
Definition scheme_with_bg (h : pystr) : gmap pystr (gmap pystr pystr) :=
  {[ str "default_colors" := {[ str "bg" := h; str "fg" := str "#edeff0" ]} ]}.

Definition scheme_without_bg : gmap pystr (gmap pystr pystr) :=
  {[ str "normal_colors" := {[ str "red" := str "#e57474" ]} ]}.

Definition cfg_both : config :=
  {| general := {[ str "color_scheme" := str "yoru" ]};
     local_colors := {[ str "yoru" := scheme_with_bg (str "#112233") ]};
     gifos_colors := {[ str "yoru" := scheme_with_bg (str "#0c0e0f") ]} |}.

Definition cfg_library_only : config :=
  {| general := {[ str "color_scheme" := str "catppuccin" ]};
     local_colors := {[ str "yoru" := scheme_with_bg (str "#112233") ]};
     gifos_colors := {[ str "catppuccin" := scheme_with_bg (str "#1E1E2E") ]} |}.


Definition cfg_local_without_bg : config :=
  {| general := ∅;
     local_colors := {[ str "yoru" := scheme_without_bg ]};
     gifos_colors := {[ str "yoru" := scheme_with_bg (str "#ffffff") ]} |}.

(** ** Natural sort key *)

(** [re.split('([0-9]+)', s)]: the text between the maximal runs of
    [[0-9]], with the runs themselves in between.  The result always starts
    and ends with a text piece, which is empty when [s] starts or ends with
    a digit. *)
Fixpoint re_split_digits (s : pystr) : list pystr :=
  match s with
  | [] => [[]]
  | c :: s' =>
      match is_ascii_digit c, re_split_digits s' with
      | true, [] :: run :: rest => [] :: (c :: run) :: rest
      | true, pieces => [] :: [c] :: pieces
      | false, text :: rest => (c :: text) :: rest
      | false, [] => [[c]]
      end
  end.

Inductive token :=
  | TInt (n : Z)
  | TStr (s : pystr).

(** [int(text) if text.isdigit() else text.lower()] *)
Definition to_token (text : pystr) : result token :=
  if isdigit text then TInt <$> int 10 text else Ok (TStr (lower text)).

(** [natural_sort_key]:
<<
    return [int(text) if text.isdigit() else text.lower()
            for text in re.split('([0-9]+)', s)]
>> *)
Definition natural_sort_key (s : pystr) : result (list token) :=
  mapM to_token (re_split_digits s).

(** *** Comparing keys

    [==] between an [int] and a [str] is [False]; [<] between them raises
    [TypeError].  Lists compare by their first differing items, then by
    length. *)

Definition token_eq (a b : token) : bool :=
  match a, b with
  | TInt x, TInt y => x =? y
  | TStr x, TStr y => bool_decide (x = y)
  | _, _ => false
  end.

Fixpoint str_lt (a b : pystr) : bool :=
  match a, b with
  | _, [] => false
  | [], _ :: _ => true
  | x :: a', y :: b' => if (x =? y)%N then str_lt a' b' else (x <? y)%N
  end.

Definition token_lt (a b : token) : result bool :=
  match a, b with
  | TInt x, TInt y => Ok (x <? y)
  | TStr x, TStr y => Ok (str_lt x y)
  | _, _ => Raise TypeError
  end.

Fixpoint key_lt (a b : list token) : result bool :=
  match a, b with
  | x :: a', y :: b' => if token_eq x y then key_lt a' b' else token_lt x y
  | [], _ :: _ => Ok true
  | _, [] => Ok false
  end.

(** *** [list.sort(key=...)]

    The keys are computed first, for the whole list; then the list is
    sorted with [<] on the keys only.  The sort is stable, and is written
    here as a stable insertion sort: an item moves behind the items already
    placed whose key is strictly smaller.  On two items this asks exactly
    the question Python asks ([second < first]). *)

Section Sort.
Context {K A : Type} (lt : K → K → result bool).

Fixpoint insert_sorted (x : K * A) (l : list (K * A)) : result (list (K * A)) :=
  match l with
  | [] => Ok [x]
  | y :: l' =>
      smaller ← lt (fst y) (fst x);
      if smaller : bool then cons y <$> insert_sorted x l'
      else Ok (x :: y :: l')
  end.

Fixpoint sort_keyed (l : list (K * A)) : result (list (K * A)) :=
  match l with
  | [] => Ok []
  | x :: l' => sorted ← sort_keyed l'; insert_sorted x sorted
  end.

Definition sort_by_key (key : A → result K) (l : list A) : result (list A) :=
  keyed ← mapM (M := result) (λ x, k ← key x; Ok (k, x)) l;
  sorted ← sort_keyed keyed;
  Ok (map snd sorted).

End Sort.

(** The order that [key_lt] decides when it does not raise: strings before
    integers (a case [key_lt] never answers), integers by value, strings
    by code points. *)
Definition token_code (t : token) : bool * (Z * pystr) :=
  match t with
  | TStr s => (false, (0, s))
  | TInt n => (true, (n, []))
  end.

#[global] Instance token_lexico : Lexico token := λ a b,
  lexico (token_code a) (token_code b).

(** In a list of keyed items, [p] does not come after [q] for the strict
    order [R] on keys. *)
Definition not_after {K A} (R : relation K) (p q : K * A) : Prop :=
  ¬ R q.1 p.1.

Definition sort_natural (names : list pystr) : result (list pystr) :=
  sort_by_key key_lt natural_sort_key names.

(** A digit from the Arabic-Indic row: [isdigit] holds for it, [[0-9]]
    does not match it, and [int] reads it as 3. *)
Definition arabic_three : N := 0x663.
Definition superscript_two : N := 0xB2.

(** *** Predicates used in the statements about the key *)

Definition ascii_str (s : pystr) : Prop := Forall (λ c, is_ascii c = true) s.

(** A text piece holds no [[0-9]]; a digit run is a non-empty string of
    [[0-9]]. *)
Definition text_piece (p : pystr) : Prop :=
  Forall (λ c, is_ascii_digit c = false) p.

Definition digit_run (p : pystr) : Prop :=
  p ≠ [] ∧ Forall (λ c, is_ascii_digit c = true) p.

Definition ends_without_digit (p : pystr) : Prop :=
  match last p with
  | Some c => is_ascii_digit c = false
  | None => True
  end.

Definition starts_without_digit (s : pystr) : Prop :=
  match s with
  | c :: _ => is_ascii_digit c = false
  | [] => True
  end.

(** Pieces alternate, text first and text last. *)
Fixpoint pieces_shape (text_next : bool) (l : list pystr) : Prop :=
  match l with
  | [] => text_next = false
  | p :: l' =>
      (if text_next then text_piece p else digit_run p)
      ∧ pieces_shape (negb text_next) l'
  end.

(** The decimal value of a digit run. *)
Definition dec_val (d : pystr) : Z :=
  fold_left (λ acc c, acc * 10 + (Z.of_N c - 48)) d 0.

(** The key of a well-shaped ASCII split, without the error cases. *)
Fixpoint tokens_of (text_next : bool) (l : list pystr) : list token :=
  match l with
  | [] => []
  | p :: l' =>
      (if text_next then TStr (lower p) else TInt (dec_val p))
      :: tokens_of (negb text_next) l'
  end.

Definition ascii_key (s : pystr) : list token :=
  tokens_of true (re_split_digits s).

(** Keys whose items alternate between strings and integers. *)
Fixpoint alternating (str_next : bool) (k : list token) : Prop :=
  match k with
  | [] => True
  | TStr _ :: k' => str_next = true ∧ alternating false k'
  | TInt _ :: k' => str_next = false ∧ alternating true k'
  end.

(** ** Images (Pillow) *)

(** Pixel data by mode; an RGBA pixel is a colour with its alpha. *)
Inductive image_data :=
  | ModeL (px : list Z)
  | ModeLA (px : list (Z * Z))
  | ModeRGB (px : list rgb)
  | ModeRGBA (px : list (rgb * Z))
  | ModeP (palette : list rgb) (px : list nat).

(** [im_size] is (width, height). *)
Record image := {
  im_size : nat * nat;
  im_data : image_data;
}.

Definition is_RGBA (img : image) : bool :=
  match im_data img with ModeRGBA _ => true | _ => false end.

(** The pixels of [img.convert('RGBA')]: modes without alpha become
    opaque. *)
Definition rgba_pixels (img : image) : list (rgb * Z) :=
  match im_data img with
  | ModeL px => map (λ l, ((l, l, l), 255)) px
  | ModeLA px => map (λ '(l, a), ((l, l, l), a)) px
  | ModeRGB px => map (λ c, (c, 255)) px
  | ModeRGBA px => px
  | ModeP palette px => map (λ i, (default (0, 0, 0) (palette !! i), 255)) px
  end.

Definition convert_RGBA (img : image) : image :=
  {| im_size := im_size img; im_data := ModeRGBA (rgba_pixels img) |}.

(** [Image.new('RGB', size, color)] *)
Definition Image_new_RGB (size : nat * nat) (color : rgb) : image :=
  {| im_size := size;
     im_data := ModeRGB (repeat color (fst size * snd size)) |}.

(** Pillow blends one band of a masked paste as
    [DIV255(dst * (255 - mask) + src * mask)] with
    [DIV255(a) = ((a + 128 >> 8) + a + 128) >> 8]. *)
Definition div255 (a : Z) : Z :=
  let tmp := a + 128 in Z.shiftr (Z.shiftr tmp 8 + tmp) 8.

Definition blend (mask dst src : Z) : Z :=
  div255 (dst * (255 - mask) + src * mask).

Definition paste_pixel (dst : rgb) (src : rgb * Z) : rgb :=
  let '(r, g, b) := dst in
  let '((sr, sg, sb), alpha) := src in
  (blend alpha r sr, blend alpha g sg, blend alpha b sb).

(** [dst.paste(src, (0, 0), src)] for an RGB [dst] and an RGBA [src] of the
    same size: [src] is both the pasted image and, through its alpha band,
    the mask.  Other combinations of modes do not arise in the script. *)
Definition paste_self_masked (dst src : image) : image :=
  match im_data dst, im_data src with
  | ModeRGB d, ModeRGBA s =>
      {| im_size := im_size dst; im_data := ModeRGB (zip_with paste_pixel d s) |}
  | _, _ => dst
  end.

Definition channels_in_range (c : rgb) : Prop :=
  let '(r, g, b) := c in 0 <= r <= 255 ∧ 0 <= g <= 255 ∧ 0 <= b <= 255.

Definition well_formed (img : image) : Prop :=
  length (rgba_pixels img) = (fst (im_size img) * snd (im_size img))%nat.

Definition fully_transparent (img : image) : Prop :=
  Forall (λ p, snd p = 0) (rgba_pixels img).

(** ** Animated GIFs

    The artifact is described by what is handed to Pillow's writer: the
    frames in order, each with its display time in milliseconds, and the
    loop count (0 repeats for ever). *)
Record gif := {
  gif_frames : list (image * Z);
  gif_loop : Z;
}.

Definition palette_size (img : image) : option nat :=
  match im_data img with
  | ModeP palette _ => Some (length palette)
  | _ => None
  end.

(** The parts of Pillow that are used as black boxes:
    [quantize img n] is [img.convert('P', palette=Image.ADAPTIVE, colors=n)],
    the two sizes are the lengths in bytes of the encoded files. *)
Class Pillow := {
  quantize : image → nat → image;
  quantize_palette : ∀ img n,
    ∃ k, palette_size (quantize img n) = Some k ∧ (k ≤ n)%nat;
  png_bytes : image → Z;
  gif_bytes : gif → Z;
}.

(** ** The file system and the console *)

Inductive file :=
  | ImageFile (img : image)
  | GifFile (g : gif)
  | OtherFile (bytes : Z).

Inductive message :=
  | MsgGenerating
  | MsgFfmpegOk
  | MsgFfmpegFailed (e : exn)
  | MsgNoFrames
  | MsgFound (n : nat) (fps : Z)
  | MsgLoaded (i n : nat)
  | MsgSaving
  | MsgSize (bytes : Z).

(** [listing] gives [os.listdir] of each directory, in the order the
    system returns the names; [tmp_names] are the names [tempfile] will
    hand out; [fallback_calls] counts the entries into
    [create_gif_from_frames]. *)
Record world := {
  files : gmap pystr file;
  listing : gmap pystr (list pystr);
  tmp_names : list pystr;
  stdout : list message;
  fallback_calls : nat;
}.

Definition set_files (f : gmap pystr file → gmap pystr file) (w : world) : world :=
  {| files := f (files w); listing := listing w; tmp_names := tmp_names w;
     stdout := stdout w; fallback_calls := fallback_calls w |}.

(** ** Programs: state and exceptions

    A raised exception keeps the effects that happened before it. *)

Definition prog (A : Type) : Type := world → result A * world.

Definition ret {A} (a : A) : prog A := λ w, (Ok a, w).

Definition raise {A} (e : exn) : prog A := λ w, (Raise e, w).

Definition lift {A} (r : result A) : prog A := λ w, (r, w).

Definition bind {A B} (m : prog A) (f : A → prog B) : prog B := λ w,
  match m w with
  | (Ok a, w') => f a w'
  | (Raise e, w') => (Raise e, w')
  end.

(** [try: body  except Exception as e: handler(e)] *)
Definition try_except {A} (body : prog A) (handler : exn → prog A) : prog A :=
  λ w,
  match body w with
  | (Ok a, w') => (Ok a, w')
  | (Raise e, w') => handler e w'
  end.

Notation "'let*' x ':=' m 'in' k" := (bind m (λ x, k))
  (at level 10, x name, m at level 100, k at level 200).
Notation "m '>>' k" := (bind m (λ _, k))
  (at level 100, k at level 200, right associativity).

Definition print (m : message) : prog unit := λ w,
  (Ok tt,
   {| files := files w; listing := listing w; tmp_names := tmp_names w;
      stdout := stdout w ++ [m]; fallback_calls := fallback_calls w |}).

Definition os_listdir (dir : pystr) : prog (list pystr) := λ w,
  (of_option FileNotFoundError (listing w !! dir), w).

(** [os.path.join(dir, name)] for a relative [name]. *)
Definition os_path_join (dir name : pystr) : pystr := dir ++ str "/" ++ name.

Definition os_path_exists (path : pystr) : prog bool := λ w,
  (Ok (bool_decide (is_Some (files w !! path))), w).

Definition file_bytes `{Pillow} (f : file) : Z :=
  match f with
  | ImageFile img => png_bytes img
  | GifFile g => gif_bytes g
  | OtherFile bytes => bytes
  end.

Definition os_path_getsize `{Pillow} (path : pystr) : prog Z := λ w,
  (of_option FileNotFoundError (file_bytes <$> files w !! path), w).

Definition Image_open (path : pystr) : prog image := λ w,
  match files w !! path with
  | Some (ImageFile img) => (Ok img, w)
  | Some (GifFile g) =>
      (of_option UnidentifiedImageError (fst <$> head (gif_frames g)), w)
  | Some (OtherFile _) => (Raise UnidentifiedImageError, w)
  | None => (Raise FileNotFoundError, w)
  end.

(** [first.save(path, save_all=True, append_images=rest, duration=d, loop=l)]:
    one duration for every frame. *)
Definition Image_save_gif (first : image) (path : pystr)
    (append_images : list image) (duration loop : Z) : prog unit := λ w,
  let g := {| gif_frames := map (λ f, (f, duration)) (first :: append_images);
              gif_loop := loop |} in
  (Ok tt, set_files (insert path (GifFile g)) w).

Definition Image_save_png (img : image) (path : pystr) : prog unit := λ w,
  (Ok tt, set_files (insert path (ImageFile img)) w).

(** [tempfile.NamedTemporaryFile(suffix='.png', delete=False)]: a new,
    empty file under the next free name. *)
Definition NamedTemporaryFile : prog pystr := λ w,
  match tmp_names w with
  | name :: rest =>
      (Ok name,
       {| files := <[name := OtherFile 0]> (files w); listing := listing w;
          tmp_names := rest; stdout := stdout w;
          fallback_calls := fallback_calls w |})
  | [] => (Raise OSError, w)
  end.

(** ** The fallback encoder *)

Definition frames_dir : pystr := str "frames".
Definition output_file : pystr := str "output.gif".
Definition fps : Z := 15.

(** [int(1000 / fps)]: the quotient is truncated.  (For [fps = 15] the
    double nearest to 66.67 truncates like the exact quotient.) *)
Definition frame_duration : Z := Z.quot 1000 fps.

Definition enter_fallback : prog unit := λ w,
  (Ok tt,
   {| files := files w; listing := listing w; tmp_names := tmp_names w;
      stdout := stdout w; fallback_calls := S (fallback_calls w) |}).

(** The loop over [enumerate(frame_files)], from index [i] on. *)
Fixpoint load_frames `{Pillow} (total i : nat) (names : list pystr)
    : prog (list image) :=
  match names with
  | [] => ret []
  | filename :: rest =>
      let filepath := os_path_join frames_dir filename in
      let* img := Image_open filepath in
      let img := quantize img 256 in
      (if ((i + 1) mod 100 =? 0)%nat then print (MsgLoaded (i + 1) total)
       else ret tt) >>
      let* frames := load_frames total (S i) rest in
      ret (img :: frames)
  end.

(** [create_gif_from_frames], line by line. *)
Definition create_gif_from_frames `{Pillow} : prog unit :=
  enter_fallback >>
  let* names := os_listdir frames_dir in
  let frame_files := List.filter (endswith (str ".png")) names in
  let* frame_files := lift (sort_natural frame_files) in
  match frame_files with
  | [] => print MsgNoFrames
  | _ :: _ =>
      print (MsgFound (length frame_files) fps) >>
      let* frames := load_frames (length frame_files) 0 frame_files in
      print MsgSaving >>
      match frames with
      | [] => raise IndexError
      | first :: rest =>
          Image_save_gif first output_file rest frame_duration 0 >>
          let* size := os_path_getsize output_file in
          print (MsgSize size)
      end
  end.

(** ** Compositing the avatar *)

(** [prepare_transparent_image(image_path, bg_color=None)] *)
Definition prepare_transparent_image (cfg : config) (image_path : pystr)
    (bg_color : option rgb) : prog pystr :=
  let* bg_color :=
    match bg_color with
    | None => lift (get_bg_color cfg)
    | Some c => ret c
    end in
  let* img := Image_open image_path in
  let img := if is_RGBA img then img else convert_RGBA img in
  let background := Image_new_RGB (im_size img) bg_color in
  let background := paste_self_masked background img in
  let* temp_file := NamedTemporaryFile in
  Image_save_png background temp_file >>
  ret temp_file.

(** ** Choosing the encoder

    [gen_gif] is the library's export, which runs ffmpeg; nothing is
    assumed about it. *)
Class Gifos := {
  gen_gif : prog unit;
}.

(** The literal of the size check, [os.path.getsize(output_file) > 10000],
    and the smallest size that passes it. *)
Definition size_limit : Z := 10000.
Definition min_valid_size : Z := size_limit + 1.

(** The try/except block of [main]. *)
Definition generate_gif `{Pillow, Gifos} : prog unit :=
  print MsgGenerating >>
  try_except
    (gen_gif >>
     let* present := os_path_exists output_file in
     let* big :=
       (if present : bool
        then let* size := os_path_getsize output_file in ret (size >? size_limit)
        else ret false) in
     if big : bool then print MsgFfmpegOk else raise GenericException)
    (λ e, print (MsgFfmpegFailed e) >> create_gif_from_frames).

(** ** Sample inputs *)

Definition transparent_icon : image :=
  {| im_size := (2, 1)%nat;
     im_data := ModeRGBA [((255, 0, 0), 0); ((0, 255, 0), 0)] |}.

Definition half_transparent_icon : image :=
  {| im_size := (1, 1)%nat; im_data := ModeLA [(255, 128)] |}.

Definition icon_world (icon : image) : world :=
  {| files := {[ str "./icon.png" := ImageFile icon ]};
     listing := ∅;
     tmp_names := [str "/tmp/tmpk3v9x2.png"];
     stdout := [];
     fallback_calls := 0 |}.

(** What the fallback encoder leaves behind: only the console and the call
    counter may differ from [w], and [output.gif] when it is written. *)
Definition same_store (w w' : world) : Prop :=
  files w' = files w ∧ listing w' = listing w ∧ tmp_names w' = tmp_names w
  ∧ fallback_calls w' = fallback_calls w.



(** [a] does not sort after [b]: both keys exist and [key(b) < key(a)] is
    false. *)
Definition name_le (a b : pystr) : Prop :=
  ∃ ka kb, natural_sort_key a = Ok ka ∧ natural_sort_key b = Ok kb
           ∧ key_lt kb ka = Ok false.

Definition keeps_store {A} (p : prog A) : Prop :=
  ∀ w, same_store w (p w).2.

Definition keeps_calls {A} (p : prog A) : Prop :=
  ∀ w, fallback_calls (p w).2 = fallback_calls w.

(** The failure signals of the primary encoder, for its outcome and the
    world it leaves: it raised, or [output.gif] is absent, or it is smaller
    than the smallest size the check accepts. *)
Definition primary_failed `{Pillow} (outcome : result unit) (w1 : world) : Prop :=
  (∃ e, outcome = Raise e)
  ∨ files w1 !! output_file = None
  ∨ (∃ f, files w1 !! output_file = Some f ∧ file_bytes f < min_valid_size).

Definition no_png_world : world :=
  {| files := {[ str "frames/notes.txt" := OtherFile 12;
                 str "frames/frame_1.jpg" := OtherFile 2048 ]};
     listing := {[ str "frames" := [str "notes.txt"; str "frame_1.jpg"] ]};
     tmp_names := [];
     stdout := [];
     fallback_calls := 0 |}.

(** A quantizer that maps every pixel to a single black palette entry; it
    stands in for Pillow's where a concrete one is needed. *)
Definition sample_quantize (img : image) (n : nat) : image :=
  {| im_size := im_size img;
     im_data := ModeP (take n [(0, 0, 0)]) (map (λ _, 0%nat) (rgba_pixels img)) |}.

Definition sample_pillow : Pillow :=
  {| quantize := sample_quantize;
     quantize_palette := λ img n,
       ex_intro _ (length (take n [(0, 0, 0)]))
         (conj eq_refl
            (eq_ind_r (λ k, (k ≤ n)%nat) (Nat.le_min_l n 1)
               (length_take [(0, 0, 0)] n)));
     png_bytes := λ img, 100 + Z.of_nat (length (rgba_pixels img));
     gif_bytes := λ g, 800 + 40 * Z.of_nat (length (gif_frames g)) |}.

Definition gifos_sample_world : world :=
  {| files := {[ str "frames/frame_10.png" := ImageFile transparent_icon;
                 str "frames/frame_2.png" := ImageFile half_transparent_icon;
                 str "frames/frame_1.png" := ImageFile transparent_icon;
                 str "frames/notes.txt" := OtherFile 12 ]};
     listing := {[ str "frames" := [str "frame_10.png"; str "frame_2.png";
                                    str "notes.txt"; str "frame_1.png"] ]};
     tmp_names := [];
     stdout := [];
     fallback_calls := 0 |}.

(** A primary encoder that returns normally but leaves a truncated file. *)
Definition truncating_ffmpeg : Gifos :=
  {| gen_gif := λ w,
       (Ok tt, set_files (insert output_file (OtherFile 512)) w) |}.

Definition truncated_world : world :=
  set_files (insert output_file (OtherFile 512))
    (print MsgGenerating gifos_sample_world).2.






(** * Further definitions

    The rest of this part models code around the functions above: more of
    [hex_to_rgb]'s inputs, the remaining paths of the compositor and the
    encoders, the staging of the settings into the environment, and the
    lines of [main] that use these functions. *)

(** Checks that reading back the two hexadecimal digits of a byte gives
    the byte. *)
Definition byte_reads_back (n : nat) : bool :=
  match int 16 (hex2 (Z.of_nat n)) with
  | Ok v => v =? Z.of_nat n
  | Raise _ => false
  end.

(** The hex string [get_bg_color] hands to [hex_to_rgb]. *)
Definition selected_bg_hex (cfg : config) : pystr :=
  match local_colors cfg !! color_scheme cfg with
  | Some entry => default default_bg_hex (bg_of entry)
  | None =>
      default default_bg_hex
        (bg_of (default ∅ (gifos_colors cfg !! color_scheme cfg)))
  end.

(** The table entry [get_bg_color] consults for the configured scheme:
    the local one if the scheme is a key of the local table, else the
    library's. *)
Definition consulted_entry (cfg : config)
    : option (gmap pystr (gmap pystr pystr)) :=
  match local_colors cfg !! color_scheme cfg with
  | Some entry => Some entry
  | None => gifos_colors cfg !! color_scheme cfg
  end.

Definition cfg_malformed : config :=
  {| general := {[ str "color_scheme" := str "yoru" ]};
     local_colors := {[ str "yoru" := scheme_with_bg (str "#0c0") ]};
     gifos_colors := {[ str "yoru" := scheme_with_bg (str "#0c0e0f") ]} |}.

(** No two of the names share a sort key. *)
Definition distinct_keys (names : list pystr) : Prop :=
  ∀ a b, a ∈ names → b ∈ names →
         natural_sort_key a = natural_sort_key b → a = b.




(** Pixels whose colour channels and alpha are bytes. *)
Definition valid_pixels (img : image) : Prop :=
  Forall (λ p, channels_in_range p.1 ∧ 0 <= p.2 <= 255) (rgba_pixels img).

(** Pixels without any transparency. *)
Definition opaque (img : image) : Prop :=
  Forall (λ p, channels_in_range p.1 ∧ p.2 = 255) (rgba_pixels img).

Definition gray_icon : image :=
  {| im_size := (2, 2)%nat; im_data := ModeL [0; 85; 170; 255] |}.

(** The image [prepare_transparent_image] saves for the opened image
    [img] and the background [c]. *)
Definition composite (c : rgb) (img : image) : image :=
  let img := if is_RGBA img then img else convert_RGBA img in
  paste_self_masked (Image_new_RGB (im_size img) c) img.

(** The colours of an image, without its alpha. *)
Definition flatten (img : image) : image :=
  {| im_size := im_size img; im_data := ModeRGB (map fst (rgba_pixels img)) |}.

(** ** Pasting the avatar (lines 219 to 222 of [main])

    [paste_image] is the terminal's method, taken as a black box. *)
Class Terminal := {
  paste_image : pystr → prog unit;
}.

(** [os.unlink(path)] *)
Definition os_unlink (path : pystr) : prog unit := λ w,
  match files w !! path with
  | Some _ => (Ok tt, set_files (delete path) w)
  | None => (Raise FileNotFoundError, w)
  end.

(**
<<
    avatar_with_bg = prepare_transparent_image("./icon.png", bg_color)
    t.paste_image(avatar_with_bg, 10, 2, size_multiplier=0.07)
    os.unlink(avatar_with_bg)
>> *)
Definition paste_avatar `{Terminal} (cfg : config) (bg_color : rgb)
    : prog unit :=
  let* avatar_with_bg :=
    prepare_transparent_image cfg (str "./icon.png") (Some bg_color) in
  paste_image avatar_with_bg >>
  os_unlink avatar_with_bg.

(** A terminal that reads the image and keeps the file system as it is,
    and one whose [paste_image] fails. *)
Definition reading_terminal : Terminal :=
  {| paste_image := λ path w,
       match files w !! path with
       | Some (ImageFile _) => (Ok tt, w)
       | _ => (Raise UnidentifiedImageError, w)
       end |}.

Definition failing_terminal : Terminal :=
  {| paste_image := λ path w, (Raise GenericException, w) |}.

(** A primary encoder that raises, and one that does nothing at all. *)
Definition raising_ffmpeg : Gifos :=
  {| gen_gif := λ w, (Raise OSError, w) |}.

Definition idle_ffmpeg : Gifos :=
  {| gen_gif := λ w, (Ok tt, w) |}.

(** A run directory without frames, but with the GIF of an earlier run. *)
Definition stale_output_world : world :=
  {| files := {[ str "output.gif" := OtherFile 250000 ]};
     listing := ∅;
     tmp_names := [];
     stdout := [];
     fallback_calls := 0 |}.

(** ** Staging the settings into the environment (lines 37 to 51)

    A TOML value is a boolean, a string, or something else, of which only
    its [str()] text matters here.  TOML strings hold Unicode scalar
    values, so encoding them for the environment cannot fail; a null
    character is refused by [os.environ] with [ValueError], a value that
    is not a string with [TypeError]. *)
Inductive toml :=
  | TomlBool (b : bool)
  | TomlStr (s : pystr)
  | TomlOther (text : pystr).

(** [str(v)] *)
Definition py_str (v : toml) : pystr :=
  match v with
  | TomlBool true => str "True"
  | TomlBool false => str "False"
  | TomlStr s => s
  | TomlOther text => text
  end.

(** [str(v).lower()], a string again. *)
Definition lower_text (v : toml) : toml := TomlStr (lower (py_str v)).

Definition has_null (s : pystr) : bool := existsb (N.eqb 0) s.

(** [os.environ[key] = v] *)
Definition setenv (key : pystr) (v : toml) (env : gmap pystr pystr)
    : result unit * gmap pystr pystr :=
  match v with
  | TomlStr s =>
      if has_null s then (Raise ValueError, env)
      else (Ok tt, <[key := s]> env)
  | _ => (Raise TypeError, env)
  end.

(** The nine assignments, in order, with the value each one stores. *)
Definition staged (general files : gmap pystr toml) : list (pystr * toml) :=
  [ (str "GIFOS_GENERAL_DEBUG",
     lower_text (default (TomlBool false) (general !! str "debug")));
    (str "GIFOS_GENERAL_CURSOR",
     default (TomlStr (str "_")) (general !! str "cursor"));
    (str "GIFOS_GENERAL_SHOW_CURSOR",
     lower_text (default (TomlBool true) (general !! str "show_cursor")));
    (str "GIFOS_GENERAL_BLINK_CURSOR",
     lower_text (default (TomlBool true) (general !! str "blink_cursor")));
    (str "GIFOS_GENERAL_USER_NAME",
     default (TomlStr (str "Fynn9563")) (general !! str "user_name"));
    (str "GIFOS_GENERAL_COLOR_SCHEME",
     default (TomlStr (str "yoru")) (general !! str "color_scheme"));
    (str "GIFOS_FILES_FRAME_BASE_NAME",
     default (TomlStr (str "frame_")) (files !! str "frame_base_name"));
    (str "GIFOS_FILES_FRAME_FOLDER_NAME",
     default (TomlStr (str "frames")) (files !! str "frame_folder_name"));
    (str "GIFOS_FILES_OUTPUT_GIF_NAME",
     default (TomlStr (str "output")) (files !! str "output_gif_name")) ].

Fixpoint setenv_all (l : list (pystr * toml)) (env : gmap pystr pystr)
    : result unit * gmap pystr pystr :=
  match l with
  | [] => (Ok tt, env)
  | (key, v) :: l' =>
      match setenv key v env with
      | (Ok _, env') => setenv_all l' env'
      | (Raise e, env') => (Raise e, env')
      end
  end.

Definition stage_environment (general files : gmap pystr toml)
    (env : gmap pystr pystr) : result unit * gmap pystr pystr :=
  setenv_all (staged general files) env.

Definition staged_names : list pystr :=
  [ str "GIFOS_GENERAL_DEBUG"; str "GIFOS_GENERAL_CURSOR";
    str "GIFOS_GENERAL_SHOW_CURSOR"; str "GIFOS_GENERAL_BLINK_CURSOR";
    str "GIFOS_GENERAL_USER_NAME"; str "GIFOS_GENERAL_COLOR_SCHEME";
    str "GIFOS_FILES_FRAME_BASE_NAME"; str "GIFOS_FILES_FRAME_FOLDER_NAME";
    str "GIFOS_FILES_OUTPUT_GIF_NAME" ].

Definition flag_names : list pystr :=
  [ str "GIFOS_GENERAL_DEBUG"; str "GIFOS_GENERAL_SHOW_CURSOR";
    str "GIFOS_GENERAL_BLINK_CURSOR" ].

(** A value [os.environ] accepts. *)
Definition storable (v : toml) : Prop :=
  ∃ s, v = TomlStr s ∧ has_null s = false.

(** The string entries of a table: what [get_bg_color] can read of
    [general]. *)
Definition string_entries (t : gmap pystr toml) : gmap pystr pystr :=
  omap (λ v, match v with TomlStr s => Some s | _ => None end) t.

Definition sample_general : gmap pystr toml :=
  {[ str "debug" := TomlBool true;
     str "cursor" := TomlStr (str "|");
     str "color_scheme" := TomlStr (str "Catppuccin") ]}.

Definition sample_general_bad : gmap pystr toml :=
  {[ str "debug" := TomlBool true; str "user_name" := TomlOther (str "9563") ]}.

(** ** The language lines of the summary (lines 181 and 200 to 204) *)

(** [l[k]] *)
Definition py_index {A} (l : list A) (k : nat) : result A :=
  of_option IndexError (l !! k).

(** [top_languages[k] if len(top_languages) > k else ''] *)
Definition language_slot (top_languages : list pystr) (k : nat)
    : result pystr :=
  if (k <? length top_languages)%nat then py_index top_languages k
  else Ok [].

(** The five interpolated values, for [languages_sorted] a list of pairs
    of a language name and its share. *)
Definition language_slots {B} (languages_sorted : list (pystr * B))
    : result (list pystr) :=
  let top_languages := map fst languages_sorted in
  mapM (language_slot top_languages) [0; 1; 2; 3; 4]%nat.

(** * Properties *)

(** ** Sanity checks of the string model *)

Example int_ff : int 16 (str "ff") = Ok 255.
Proof. reflexivity. Qed.
Example int_plus_f : int 16 (str "+f") = Ok 15.
Proof. reflexivity. Qed.
Example int_0x : int 16 (str "0x") = Raise ValueError.
Proof. reflexivity. Qed.
Example int_empty : int 16 [] = Raise ValueError.
Proof. reflexivity. Qed.
Example int_dec : int 10 (str "0010") = Ok 10.
Proof. reflexivity. Qed.
Example int_superscript : int 10 [0xB2%N] = Raise ValueError.
Proof. reflexivity. Qed.
Example int_arabic : int 10 [0x663%N] = Ok 3.
Proof. reflexivity. Qed.
Example hex_default : hex_to_rgb (str "#0c0e0f") = Ok (12, 14, 15).
Proof. reflexivity. Qed.
Example hex_short : hex_to_rgb (str "#fff") = Raise ValueError.
Proof. reflexivity. Qed.

(** ** [hex_to_rgb] *)

Lemma is_hex_digit_list c : is_hex_digit c = true → In c hex_digit_list.
Proof.
  unfold is_hex_digit, is_ascii_digit, between.
  rewrite !orb_true_iff, !andb_true_iff, !N.leb_le. intros H.
  assert (c = 48 ∨ c = 49 ∨ c = 50 ∨ c = 51 ∨ c = 52 ∨ c = 53 ∨ c = 54
          ∨ c = 55 ∨ c = 56 ∨ c = 57 ∨ c = 97 ∨ c = 98 ∨ c = 99 ∨ c = 100
          ∨ c = 101 ∨ c = 102 ∨ c = 65 ∨ c = 66 ∨ c = 67 ∨ c = 68 ∨ c = 69
          ∨ c = 70)%N as Hc by (destruct H as [[H|H]|H]; lia).
  unfold hex_digit_list. simpl. intuition auto.
Qed.

Lemma is_hex_digit_not_hash c : is_hex_digit c = true → (c =? 35)%N = false.
Proof.
  unfold is_hex_digit, is_ascii_digit, between.
  rewrite !orb_true_iff, !andb_true_iff, !N.leb_le, N.eqb_neq. lia.
Qed.

Lemma pair_roundtrips_all :
  forallb (λ h1, forallb (pair_roundtrips h1) hex_digit_list) hex_digit_list
  = true.
Proof. vm_compute. reflexivity. Qed.

Lemma int16_pair h1 h2 :
  is_hex_digit h1 = true → is_hex_digit h2 = true →
  ∃ v, int 16 [h1; h2] = Ok v ∧ 0 <= v < 256
       ∧ hex2 v = [lower_char h1; lower_char h2].
Proof.
  intros H1%is_hex_digit_list H2%is_hex_digit_list.
  pose proof pair_roundtrips_all as Hall.
  rewrite forallb_forall in Hall. specialize (Hall _ H1).
  rewrite forallb_forall in Hall. specialize (Hall _ H2).
  unfold pair_roundtrips in Hall.
  destruct (int 16 [h1; h2]) as [v|]; [|discriminate].
  apply andb_true_iff in Hall as [Hr Hh].
  apply andb_true_iff in Hr as [Hlo Hhi].
  apply bool_decide_eq_true in Hh.
  exists v. split; [reflexivity|]. split; [lia|exact Hh].
Qed.

Ltac split_compare :=
  repeat match goal with
  | |- context [(?a <=? ?b)%N] => destruct (N.leb_spec a b)
  | |- context [(?a =? ?b)%N] => destruct (N.eqb_spec a b)
  | |- context [(?a <? ?b)%N] => destruct (N.ltb_spec a b)
  end.

Lemma lower_char_idemp c : lower_char (lower_char c) = lower_char c.
Proof.
  unfold lower_char at 2. unfold between.
  split_compare; cbn [andb negb]; try reflexivity;
    unfold lower_char, between; split_compare; cbn [andb negb];
    try reflexivity; lia.
Qed.

Lemma lower_idemp s : lower (lower s) = lower s.
Proof.
  unfold lower. rewrite map_map. apply map_ext. intros. apply lower_char_idemp.
Qed.

Lemma is_hex_color_inv s :
  is_hex_color s = true →
  ∃ h1 h2 h3 h4 h5 h6,
    s = 35%N :: [h1; h2; h3; h4; h5; h6]
    ∧ Forall (λ h, is_hex_digit h = true) [h1; h2; h3; h4; h5; h6].
Proof.
  intros Hs. destruct s as [|hash h]; [discriminate|].
  unfold is_hex_color in Hs.
  apply andb_true_iff in Hs as [Hs Hall].
  apply andb_true_iff in Hs as [Hhash Hlen].
  apply N.eqb_eq in Hhash as ->. apply Nat.eqb_eq in Hlen.
  destruct h as [|h1 [|h2 [|h3 [|h4 [|h5 [|h6 [|]]]]]]]; try discriminate.
  exists h1, h2, h3, h4, h5, h6. split; [done|].
  apply Forall_forall. intros x Hx%list_elem_of_In.
  rewrite forallb_forall in Hall. by apply Hall.
Qed.

Lemma hex_to_rgb_slices h1 h2 h3 h4 h5 h6 r g b :
  is_hex_digit h1 = true →
  int 16 [h1; h2] = Ok r → int 16 [h3; h4] = Ok g → int 16 [h5; h6] = Ok b →
  hex_to_rgb (35%N :: [h1; h2; h3; h4; h5; h6]) = Ok (r, g, b).
Proof.
  intros H1 Hr Hg Hb. unfold hex_to_rgb. cbn [lstrip]. rewrite N.eqb_refl.
  cbn [lstrip]. rewrite (is_hex_digit_not_hash h1) by done.
  change (slice 0 2 [h1; h2; h3; h4; h5; h6]) with [h1; h2].
  change (slice 2 4 [h1; h2; h3; h4; h5; h6]) with [h3; h4].
  change (slice 4 6 [h1; h2; h3; h4; h5; h6]) with [h5; h6].
  rewrite Hr, Hg, Hb. reflexivity.
Qed.

(** C8: for every string of the form [#RRGGBB], [hex_to_rgb] returns a
    triple, and writing that triple back as [#rrggbb] gives the original
    string up to letter case (the lower-cased original, exactly). *)
Theorem hex_to_rgb_roundtrip (s : pystr) :
  is_hex_color s = true →
  ∃ c, hex_to_rgb s = Ok c
       ∧ rgb_to_hex c = lower s
       ∧ lower (rgb_to_hex c) = lower s.
Proof.
  intros (h1 & h2 & h3 & h4 & h5 & h6 & -> & Hall)%is_hex_color_inv.
  repeat (apply Forall_cons in Hall as [? Hall]).
  destruct (int16_pair h1 h2) as (r & Hr & _ & Hr'); [done..|].
  destruct (int16_pair h3 h4) as (g & Hg & _ & Hg'); [done..|].
  destruct (int16_pair h5 h6) as (b & Hb & _ & Hb'); [done..|].
  exists (r, g, b).
  assert (rgb_to_hex (r, g, b) = lower (35%N :: [h1; h2; h3; h4; h5; h6]))
    as Hfmt.
  { unfold rgb_to_hex. rewrite Hr', Hg', Hb'. reflexivity. }
  split; [by apply hex_to_rgb_slices|]. split; [exact Hfmt|].
  rewrite Hfmt. apply lower_idemp.
Qed.

Lemma hex_to_rgb_roundtrip_witness :
  is_hex_color (str "#0C0e0F") = true
  ∧ ∃ c, hex_to_rgb (str "#0C0e0F") = Ok c
         ∧ rgb_to_hex c = lower (str "#0C0e0F")
         ∧ lower (rgb_to_hex c) = lower (str "#0C0e0F").
Proof.
  split; [reflexivity|].
  apply (hex_to_rgb_roundtrip (str "#0C0e0F")). reflexivity.
Defined.


(** ** [get_bg_color] *)

Lemma get_bg_color_local cfg entry :
  local_colors cfg !! color_scheme cfg = Some entry →
  get_bg_color cfg = hex_to_rgb (default default_bg_hex (bg_of entry)).
Proof. intros H. unfold get_bg_color. by rewrite H. Qed.


Lemma bg_of_empty : bg_of ∅ = None.
Proof. unfold bg_of. by rewrite lookup_empty. Qed.


Lemma table_valid_singleton name h :
  is_hex_color h = true → table_valid {[ name := scheme_with_bg h ]}.
Proof.
  intros Hh scheme entry h' Hlook Hbg.
  apply lookup_singleton_Some in Hlook as [_ <-].
  unfold bg_of, scheme_with_bg in Hbg.
  rewrite lookup_singleton_eq in Hbg. simpl in Hbg.
  rewrite lookup_insert_eq in Hbg. congruence.
Qed.


(** C10: a scheme that the local table defines without a
    [default_colors.bg] entry resolves to the literal default
    [(12, 14, 15)], whatever the library table holds for that name. *)
Theorem get_bg_color_local_without_bg (cfg : config) entry :
  local_colors cfg !! color_scheme cfg = Some entry →
  bg_of entry = None →
  get_bg_color cfg = Ok (12, 14, 15).
Proof.
  intros Hl Hbg. rewrite (get_bg_color_local _ _ Hl). by rewrite Hbg.
Qed.

Lemma get_bg_color_local_without_bg_witness :
  gifos_colors cfg_local_without_bg !! color_scheme cfg_local_without_bg
    = Some (scheme_with_bg (str "#ffffff"))
  ∧ bg_of (scheme_with_bg (str "#ffffff")) = Some (str "#ffffff")
  ∧ get_bg_color cfg_local_without_bg = Ok (12, 14, 15).
Proof.
  split; [apply lookup_singleton_eq|]. split.
  - unfold bg_of, scheme_with_bg. rewrite lookup_singleton_eq.
    apply lookup_insert_eq.
  - apply (get_bg_color_local_without_bg cfg_local_without_bg scheme_without_bg).
    + apply lookup_singleton_eq.
    + unfold bg_of, scheme_without_bg. by rewrite lookup_singleton_ne.
Defined.

(** ** [natural_sort_key] on examples *)

Example split_frame_2 :
  re_split_digits (str "frame_2.png") = [str "frame_"; str "2"; str ".png"].
Proof. reflexivity. Qed.
Example split_leading_digits :
  re_split_digits (str "10frame") = [[]; str "10"; str "frame"].
Proof. reflexivity. Qed.
Example split_trailing_digits :
  re_split_digits (str "frame10") = [str "frame"; str "10"; []].
Proof. reflexivity. Qed.
Example split_two_runs :
  re_split_digits (str "a1b22c") = [str "a"; str "1"; str "b"; str "22"; str "c"].
Proof. reflexivity. Qed.
Example key_frame_10 :
  natural_sort_key (str "Frame_010.PNG")
  = Ok [TStr (str "frame_"); TInt 10; TStr (str ".png")].
Proof. reflexivity. Qed.
Example sort_frames :
  sort_natural [str "frame_10.png"; str "frame_2.png"; str "frame_1.png"]
  = Ok [str "frame_1.png"; str "frame_2.png"; str "frame_10.png"].
Proof. reflexivity. Qed.
Example sort_character_wise :
  str_lt (str "frame_10.png") (str "frame_2.png") = true.
Proof. reflexivity. Qed.
Example sort_stable :
  sort_natural [str "b1"; str "B01"; str "a"] = Ok [str "a"; str "b1"; str "B01"].
Proof. reflexivity. Qed.

(** ** The split *)

Lemma re_split_digits_nonempty s : re_split_digits s ≠ [].
Proof.
  destruct s as [|c s]; [done|]. simpl.
  destruct (is_ascii_digit c), (re_split_digits s) as [|[|x t] [|run rest]];
    done.
Qed.

Lemma re_split_digits_concat s : concat (re_split_digits s) = s.
Proof.
  induction s as [|c s IH]; [done|]. simpl.
  destruct (is_ascii_digit c), (re_split_digits s) as [|[|x t] [|run rest]];
    simpl in *; congruence.
Qed.

Lemma re_split_digits_shape s : pieces_shape true (re_split_digits s).
Proof.
  induction s as [|c s IH].
  - simpl. split; [constructor|done].
  - simpl. destruct (is_ascii_digit c) eqn:Hc,
      (re_split_digits s) as [|[|x t] [|run rest]];
      simpl in *; unfold text_piece, digit_run in *;
      intuition (try congruence; try done; try (constructor; auto; fail)).
Qed.

Lemma re_split_digits_head_text c s :
  is_ascii_digit c = false →
  ∃ t rest, re_split_digits (c :: s) = (c :: t) :: rest.
Proof.
  intros Hc. simpl. rewrite Hc.
  destruct (re_split_digits s) as [|t rest]; eauto.
Qed.

Lemma re_split_digits_run d s :
  digit_run d → starts_without_digit s →
  re_split_digits (d ++ s) = [] :: d :: re_split_digits s.
Proof.
  intros [Hne Hd] Hs. induction d as [|c d IH]; [done|].
  apply Forall_cons in Hd as [Hc Hd].
  destruct d as [|c' d].
  - simpl. rewrite Hc. destruct s as [|x s].
    + done.
    + destruct (re_split_digits_head_text x s Hs) as (t & rest & ->). done.
  - change ((c :: c' :: d) ++ s) with (c :: ((c' :: d) ++ s)).
    cbn [re_split_digits]. rewrite Hc, IH; done.
Qed.

Lemma ends_without_digit_tail c p :
  p ≠ [] → ends_without_digit (c :: p) → ends_without_digit p.
Proof. unfold ends_without_digit. destruct p; [done|]. by simpl. Qed.

(** Inserting a digit run between a prefix that does not end with a digit
    and a suffix that does not start with one adds that run as one piece. *)
Lemma re_split_digits_embedded p d s :
  ends_without_digit p → digit_run d → starts_without_digit s →
  re_split_digits (p ++ d ++ s)
  = re_split_digits p ++ d :: re_split_digits s.
Proof.
  intros Hp Hd Hs. induction p as [|c p IH].
  - simpl. by apply re_split_digits_run.
  - assert (re_split_digits (p ++ d ++ s)
            = re_split_digits p ++ d :: re_split_digits s) as IH'.
    { destruct p as [|c' p]; [simpl; by apply re_split_digits_run|].
      apply IH. by apply ends_without_digit_tail in Hp. }
    change ((c :: p) ++ d ++ s) with (c :: (p ++ d ++ s)).
    cbn [re_split_digits]. rewrite IH'.
    pose proof (re_split_digits_nonempty p) as Hne.
    pose proof (re_split_digits_concat p) as Hcat.
    destruct (is_ascii_digit c) eqn:Hc,
      (re_split_digits p) as [|[|x t] [|run rest]]; try done.
    simpl in Hcat. subst p. unfold ends_without_digit in Hp. simpl in Hp.
    congruence.
Qed.

(** ** The key of an ASCII string *)

Ltac char_solve :=
  unfold isdigit_char, is_superscript_digit, is_space, is_ascii_digit,
    is_ascii, digit_value, between;
  split_compare; cbn; try done; try lia; try (exfalso; lia).

Lemma ascii_digit_isdigit c : is_ascii_digit c = true → isdigit_char c = true.
Proof. char_solve. Qed.

Lemma ascii_text_not_isdigit c :
  is_ascii c = true → is_ascii_digit c = false → isdigit_char c = false.
Proof. char_solve. Qed.

Lemma ascii_digit_not_space c : is_ascii_digit c = true → is_space c = false.
Proof. char_solve. Qed.

Lemma ascii_digit_not_sign c :
  is_ascii_digit c = true →
  (c =? 43)%N = false ∧ (c =? 45)%N = false ∧ (c =? 95)%N = false.
Proof. char_solve. Qed.

Lemma ascii_digit_value c :
  is_ascii_digit c = true →
  digit_value c = Some (Z.of_N c - 48) ∧ 0 <= Z.of_N c - 48 < 10.
Proof.
  intros Hc. unfold digit_value. rewrite Hc. split; [done|].
  revert Hc. char_solve.
Qed.

Lemma lstrip_space_digits d :
  Forall (λ c, is_ascii_digit c = true) d → lstrip_space d = d.
Proof.
  destruct 1 as [|c d Hc _]; [done|]. simpl.
  by rewrite (ascii_digit_not_space c Hc).
Qed.

Lemma strip_space_digits d :
  Forall (λ c, is_ascii_digit c = true) d → strip_space d = d.
Proof.
  intros Hd. unfold strip_space.
  rewrite (lstrip_space_digits d Hd).
  rewrite lstrip_space_digits by by apply Forall_rev.
  apply rev_involutive.
Qed.

Lemma digits_digit_run d acc b :
  Forall (λ c, is_ascii_digit c = true) d → d ≠ [] ∨ b = false →
  digits 10 acc b d
  = Some (fold_left (λ acc c, acc * 10 + (Z.of_N c - 48)) d acc).
Proof.
  intros Hd. revert acc b. induction Hd as [|c d Hc Hd IH]; intros acc b Hb.
  - destruct Hb as [? | ->]; done.
  - cbn [digits fold_left].
    destruct (ascii_digit_not_sign c Hc) as (_ & _ & ->).
    destruct (ascii_digit_value c Hc) as [-> Hv].
    replace (Z.of_N c - 48 <? 10) with true by (symmetry; apply Z.ltb_lt; lia).
    apply IH. by right.
Qed.

Lemma int10_digit_run d : digit_run d → int 10 d = Ok (dec_val d).
Proof.
  intros [Hne Hd]. unfold int. rewrite (strip_space_digits d Hd).
  destruct d as [|c d]; [done|].
  pose proof Hd as [Hc _]%Forall_cons.
  unfold split_sign.
  destruct (ascii_digit_not_sign c Hc) as (-> & -> & _).
  assert (strip_prefix 10 (c :: d) = c :: d) as ->.
  { unfold strip_prefix. by destruct d. }
  rewrite (digits_digit_run (c :: d) 0 true Hd) by by left.
  simpl. f_equal. unfold dec_val. simpl.
  by destruct (fold_left _ d _).
Qed.

Lemma isdigit_digit_run d : digit_run d → isdigit d = true.
Proof.
  intros [Hne Hd]. destruct d as [|c d]; [done|]. unfold isdigit.
  apply forallb_forall. intros x Hx. apply ascii_digit_isdigit.
  rewrite Forall_forall in Hd. apply Hd. by apply list_elem_of_In.
Qed.

Lemma isdigit_text_piece p : ascii_str p → text_piece p → isdigit p = false.
Proof.
  intros Ha Hp. destruct p as [|c p]; [done|].
  apply Forall_cons in Ha as [Hac _]. apply Forall_cons in Hp as [Hc _].
  unfold isdigit. cbn [forallb]. by rewrite ascii_text_not_isdigit.
Qed.

Lemma to_token_run d : digit_run d → to_token d = Ok (TInt (dec_val d)).
Proof.
  intros Hd. unfold to_token.
  by rewrite (isdigit_digit_run d Hd), (int10_digit_run d Hd).
Qed.

Lemma to_token_text p :
  ascii_str p → text_piece p → to_token p = Ok (TStr (lower p)).
Proof. intros Ha Hp. unfold to_token. by rewrite isdigit_text_piece. Qed.

Lemma mapM_cons_Ok {A B} (f : A → result B) x l y k :
  f x = Ok y → mapM f l = Ok k → mapM f (x :: l) = Ok (y :: k).
Proof. intros Hx Hl. cbn. rewrite Hx. cbn. rewrite Hl. reflexivity. Qed.

Lemma mapM_app_Ok {A B} (f : A → result B) l1 l2 k1 k2 :
  mapM f l1 = Ok k1 → mapM f l2 = Ok k2 → mapM f (l1 ++ l2) = Ok (k1 ++ k2).
Proof.
  revert k1. induction l1 as [|x l1 IH]; intros k1 H1 H2.
  - cbn in H1. injection H1 as <-. exact H2.
  - cbn in H1. destruct (f x) as [y|] eqn:Hx; [|discriminate].
    cbn in H1. destruct (mapM f l1) as [k|] eqn:Hl; [|discriminate].
    cbn in H1. injection H1 as <-.
    simpl app. apply mapM_cons_Ok; [done|]. by apply IH.
Qed.

Lemma mapM_to_token_shape b l :
  pieces_shape b l → Forall ascii_str l →
  mapM to_token l = Ok (tokens_of b l).
Proof.
  revert b. induction l as [|p l IH]; intros b Hs Ha; [done|].
  destruct Hs as [Hp Hs]. apply Forall_cons in Ha as [Hap Ha].
  cbn [tokens_of]. apply mapM_cons_Ok; [|by apply IH].
  destruct b; [by apply to_token_text|by apply to_token_run].
Qed.

Lemma ascii_str_pieces s : ascii_str s → Forall ascii_str (re_split_digits s).
Proof.
  intros Hs. rewrite <- (re_split_digits_concat s) in Hs.
  unfold ascii_str in *. induction (re_split_digits s) as [|p l IH]; [done|].
  simpl in Hs. apply Forall_app in Hs as [? ?]. constructor; auto.
Qed.

Lemma natural_sort_key_ascii s :
  ascii_str s →
  natural_sort_key s = Ok (tokens_of true (re_split_digits s)).
Proof.
  intros Hs. apply mapM_to_token_shape.
  - apply re_split_digits_shape.
  - by apply ascii_str_pieces.
Qed.

Lemma tokens_of_alternating b l : alternating b (tokens_of b l).
Proof.
  revert b. induction l as [|p l IH]; intros b; [done|].
  destruct b; simpl; split; auto; apply IH.
Qed.

Lemma alternating_lookup b k i t :
  alternating b k → k !! i = Some t →
  match t with
  | TStr _ => Nat.even i = b
  | TInt _ => Nat.even i = negb b
  end.
Proof.
  revert b i. induction k as [|x k IH]; intros b i Hk Hi; [done|].
  destruct i as [|i].
  - injection Hi as ->. destruct t, Hk as [-> _]; done.
  - cbn in Hi. rewrite Nat.even_succ, <- Nat.negb_even.
    destruct x, Hk as [-> Hk]; specialize (IH _ _ Hk Hi); cbn in IH;
      destruct t; by rewrite IH.
Qed.

(** For an ASCII string the key exists, has strings at the even indices
    and integers at the odd ones. *)
Lemma natural_sort_key_ascii_parity s :
  ascii_str s →
  ∃ k, natural_sort_key s = Ok k
       ∧ ∀ i t, k !! i = Some t →
           match t with
           | TStr _ => Nat.even i = true
           | TInt _ => Nat.odd i = true
           end.
Proof.
  intros Hs. exists (ascii_key s). split; [by apply natural_sort_key_ascii|].
  intros i t Hi.
  pose proof (alternating_lookup true _ i t (tokens_of_alternating true _) Hi)
    as Ht.
  destruct t; [|done]. by rewrite <- Nat.negb_even, Ht.
Qed.

(** ** Comparing keys *)

Lemma token_eq_refl x : token_eq x x = true.
Proof. destruct x; simpl; [apply Z.eqb_refl|by apply bool_decide_eq_true]. Qed.

Lemma key_lt_irrefl k : key_lt k k = Ok false.
Proof. induction k as [|x k IH]; [done|]. simpl. by rewrite token_eq_refl. Qed.

Lemma key_lt_common_prefix k a b : key_lt (k ++ a) (k ++ b) = key_lt a b.
Proof. induction k as [|x k IH]; [done|]. simpl. by rewrite token_eq_refl. Qed.

(** Keys of the same alternating shape are always comparable. *)
Lemma key_lt_alternating b k1 k2 :
  alternating b k1 → alternating b k2 → ∃ r, key_lt k1 k2 = Ok r.
Proof.
  revert b k2. induction k1 as [|x k1 IH]; intros b k2 H1 H2.
  - destruct k2; simpl; eauto.
  - destruct k2 as [|y k2]; [simpl; eauto|].
    destruct x, y; simpl in *; destruct H1 as [-> H1], H2 as [? H2];
      try discriminate; case_match; eauto.
Qed.

(** ** Names that differ in one digit run *)

Lemma natural_sort_key_embedded p d s kp ks :
  ends_without_digit p → digit_run d → starts_without_digit s →
  natural_sort_key p = Ok kp → natural_sort_key s = Ok ks →
  natural_sort_key (p ++ d ++ s) = Ok (kp ++ TInt (dec_val d) :: ks).
Proof.
  intros Hp Hd Hs Hkp Hks. unfold natural_sort_key in *.
  rewrite re_split_digits_embedded by done.
  apply mapM_app_Ok; [done|].
  apply mapM_cons_Ok; [by apply to_token_run|done].
Qed.

Lemma key_lt_embedded kp ks v1 v2 :
  key_lt (kp ++ TInt v1 :: ks) (kp ++ TInt v2 :: ks) = Ok (v1 <? v2).
Proof.
  rewrite key_lt_common_prefix. simpl.
  destruct (Z.eqb_spec v1 v2) as [->|Hne]; [|done].
  by rewrite key_lt_irrefl, Z.ltb_irrefl.
Qed.

Lemma sort_natural_pair a b ka kb (r : bool) :
  natural_sort_key a = Ok ka → natural_sort_key b = Ok kb →
  key_lt kb ka = Ok r →
  sort_natural [a; b] = Ok (if r then [b; a] else [a; b]).
Proof.
  intros Ha Hb Hlt. unfold sort_natural, sort_by_key.
  cbn. rewrite Ha. cbn. rewrite Hb. cbn. rewrite Hlt. cbn.
  by destruct r.
Qed.

(** C2: two ASCII names that differ only in one embedded digit run (the
    run is maximal: the common prefix does not end with a digit and the
    common suffix does not start with one) have keys that compare as the
    numeric values of the two runs; so sorting the pair, given in either
    order, puts the name with the smaller number first. *)
Theorem natural_sort_orders_by_number (p s d1 d2 : pystr) :
  ascii_str p → ascii_str s →
  ends_without_digit p → starts_without_digit s →
  digit_run d1 → digit_run d2 →
  ∃ k1 k2,
    natural_sort_key (p ++ d1 ++ s) = Ok k1
    ∧ natural_sort_key (p ++ d2 ++ s) = Ok k2
    ∧ key_lt k1 k2 = Ok (dec_val d1 <? dec_val d2)
    ∧ (dec_val d1 < dec_val d2 →
       sort_natural [p ++ d1 ++ s; p ++ d2 ++ s]
         = Ok [p ++ d1 ++ s; p ++ d2 ++ s]
       ∧ sort_natural [p ++ d2 ++ s; p ++ d1 ++ s]
         = Ok [p ++ d1 ++ s; p ++ d2 ++ s]).
Proof.
  intros Hap Has Hp Hs Hd1 Hd2.
  pose proof (natural_sort_key_ascii p Hap) as Hkp.
  pose proof (natural_sort_key_ascii s Has) as Hks.
  pose proof (natural_sort_key_embedded p d1 s _ _ Hp Hd1 Hs Hkp Hks) as H1.
  pose proof (natural_sort_key_embedded p d2 s _ _ Hp Hd2 Hs Hkp Hks) as H2.
  eexists _, _. split; [exact H1|]. split; [exact H2|].
  split; [apply key_lt_embedded|].
  intros Hlt. split.
  - rewrite (sort_natural_pair _ _ _ _ _ H1 H2 (key_lt_embedded _ _ _ _)).
    by replace (dec_val d2 <? dec_val d1) with false
      by (symmetry; apply Z.ltb_ge; lia).
  - rewrite (sort_natural_pair _ _ _ _ _ H2 H1 (key_lt_embedded _ _ _ _)).
    by replace (dec_val d1 <? dec_val d2) with true
      by (symmetry; apply Z.ltb_lt; lia).
Qed.

Lemma natural_sort_orders_by_number_witness :
  ∃ k1 k2,
    natural_sort_key (str "frame_2.png") = Ok k1
    ∧ natural_sort_key (str "frame_10.png") = Ok k2
    ∧ key_lt k1 k2 = Ok true
    ∧ (2 < 10 →
       sort_natural [str "frame_2.png"; str "frame_10.png"]
         = Ok [str "frame_2.png"; str "frame_10.png"]
       ∧ sort_natural [str "frame_10.png"; str "frame_2.png"]
         = Ok [str "frame_2.png"; str "frame_10.png"]).
Proof.
  apply (natural_sort_orders_by_number
           (str "frame_") (str ".png") (str "2") (str "10")).
  - repeat constructor.
  - repeat constructor.
  - reflexivity.
  - reflexivity.
  - split; [done|repeat constructor].
  - split; [done|repeat constructor].
Defined.

(** ** Names with digits outside [[0-9]] *)

Example isdigit_arabic_three : isdigit [arabic_three] = true.
Proof. reflexivity. Qed.
Example split_arabic_three :
  re_split_digits (arabic_three :: str "1.png")
  = [[arabic_three]; str "1"; str ".png"].
Proof. reflexivity. Qed.
Example key_superscript_two :
  natural_sort_key (superscript_two :: str "2.png") = Raise ValueError.
Proof. reflexivity. Qed.

(** C9 (at the failing input): the key of a name that starts with an
    Arabic-Indic digit followed by an ASCII digit has integers at indices 0
    and 1, and sorting it together with an ordinary frame name raises
    [TypeError]. *)
Theorem natural_sort_key_mixed_types :
  natural_sort_key (arabic_three :: str "1.png")
    = Ok [TInt 3; TInt 1; TStr (str ".png")]
  ∧ natural_sort_key (str "frame_1.png")
    = Ok [TStr (str "frame_"); TInt 1; TStr (str ".png")]
  ∧ key_lt [TStr (str "frame_"); TInt 1; TStr (str ".png")]
           [TInt 3; TInt 1; TStr (str ".png")] = Raise TypeError
  ∧ sort_natural [arabic_three :: str "1.png"; str "frame_1.png"]
    = Raise TypeError.
Proof. repeat split; reflexivity. Qed.

(** ** Compositing *)

Lemma div255_exact d : 0 <= d <= 255 → div255 (d * 255) = d.
Proof.
  intros Hd. unfold div255. rewrite !Z.shiftr_div_pow2 by lia.
  change (2 ^ 8) with 256. Z.div_mod_to_equations. lia.
Qed.

(** Under a mask of 0 the destination keeps its value. *)
Lemma blend_transparent d s : 0 <= d <= 255 → blend 0 d s = d.
Proof.
  intros Hd. unfold blend.
  rewrite Z.mul_0_r, Z.add_0_r, Z.sub_0_r. by apply div255_exact.
Qed.

Lemma paste_pixel_transparent c p :
  channels_in_range c → snd p = 0 → paste_pixel c p = c.
Proof.
  destruct c as [[r g] b], p as [[[sr sg] sb] a]. simpl.
  intros (Hr & Hg & Hb) ->. by rewrite !blend_transparent.
Qed.

Lemma zip_with_paste_transparent c n s :
  channels_in_range c → Forall (λ p, snd p = 0) s → length s = n →
  zip_with paste_pixel (repeat c n) s = repeat c n.
Proof.
  intros Hc Hs. revert n. induction Hs as [|p s Hp Hs IH]; intros n Hn.
  - simpl in Hn. by subst n.
  - simpl in Hn. subst n. simpl.
    rewrite paste_pixel_transparent by done. f_equal. by apply IH.
Qed.

Lemma ensure_RGBA img :
  let img' := if is_RGBA img then img else convert_RGBA img in
  im_size img' = im_size img ∧ im_data img' = ModeRGBA (rgba_pixels img).
Proof.
  unfold is_RGBA, convert_RGBA, rgba_pixels.
  destruct img as [size data]; destruct data; simpl; done.
Qed.

Lemma paste_transparent_onto_fill img c :
  well_formed img → fully_transparent img → channels_in_range c →
  paste_self_masked
    (Image_new_RGB (im_size img) c)
    (if is_RGBA img then img else convert_RGBA img)
  = Image_new_RGB (im_size img) c.
Proof.
  intros Hwf Htr Hc. destruct (ensure_RGBA img) as [_ Hdata].
  unfold paste_self_masked. rewrite Hdata. cbn [Image_new_RGB im_data im_size].
  unfold Image_new_RGB. f_equal. f_equal.
  by apply zip_with_paste_transparent.
Qed.

Lemma prepare_transparent_image_run cfg w path img c t rest :
  files w !! path = Some (ImageFile img) →
  tmp_names w = t :: rest →
  ∃ w',
    prepare_transparent_image cfg path (Some c) w = (Ok t, w')
    ∧ files w' !! t
      = Some (ImageFile
                (paste_self_masked
                   (Image_new_RGB
                      (im_size (if is_RGBA img then img else convert_RGBA img)) c)
                   (if is_RGBA img then img else convert_RGBA img)))
    ∧ (∀ p, p ≠ t → files w' !! p = files w !! p).
Proof.
  intros Hfile Htmp.
  unfold prepare_transparent_image, bind, ret, Image_open, NamedTemporaryFile,
    Image_save_png, set_files.
  rewrite Hfile, Htmp. cbn.
  eexists. split; [reflexivity|]. cbn. split.
  - by rewrite lookup_insert_eq.
  - intros p Hp. by rewrite !lookup_insert_ne.
Qed.

(** C7: compositing an image whose pixels are all fully transparent onto
    [(12, 14, 15)] writes, under the returned temporary name, an image of
    the source's dimensions whose every pixel is [(12, 14, 15)]. *)
Theorem composite_fully_transparent cfg w path img t rest :
  files w !! path = Some (ImageFile img) →
  well_formed img → fully_transparent img →
  tmp_names w = t :: rest →
  ∃ w' out px,
    prepare_transparent_image cfg path (Some (12, 14, 15)) w = (Ok t, w')
    ∧ files w' !! t = Some (ImageFile out)
    ∧ out = Image_new_RGB (im_size img) (12, 14, 15)
    ∧ im_size out = im_size img
    ∧ im_data out = ModeRGB px
    ∧ length px = (fst (im_size img) * snd (im_size img))%nat
    ∧ Forall (λ p, p = (12, 14, 15)) px.
Proof.
  intros Hfile Hwf Htr Htmp.
  destruct (prepare_transparent_image_run cfg w path img (12, 14, 15) t rest)
    as (w' & Hrun & Hout & _); [done..|].
  destruct (ensure_RGBA img) as [Hsize _]. cbn zeta in Hsize.
  rewrite Hsize in Hout.
  rewrite paste_transparent_onto_fill in Hout by (done || (cbn; lia)).
  exists w', (Image_new_RGB (im_size img) (12, 14, 15)),
    (repeat (12, 14, 15) (fst (im_size img) * snd (im_size img))).
  repeat split; try done.
  - apply repeat_length.
  - apply Forall_forall. intros p Hp%list_elem_of_In. by apply repeat_spec in Hp.
Qed.

Lemma composite_fully_transparent_witness :
  ∃ w' out px,
    prepare_transparent_image cfg_both (str "./icon.png") (Some (12, 14, 15))
      (icon_world transparent_icon)
    = (Ok (str "/tmp/tmpk3v9x2.png"), w')
    ∧ files w' !! str "/tmp/tmpk3v9x2.png" = Some (ImageFile out)
    ∧ out = Image_new_RGB (2, 1)%nat (12, 14, 15)
    ∧ im_size out = (2, 1)%nat
    ∧ im_data out = ModeRGB px
    ∧ length px = 2%nat
    ∧ Forall (λ p, p = (12, 14, 15)) px.
Proof.
  apply (composite_fully_transparent cfg_both (icon_world transparent_icon)
           (str "./icon.png") transparent_icon (str "/tmp/tmpk3v9x2.png") []).
  - apply lookup_singleton_eq.
  - reflexivity.
  - repeat constructor.
  - reflexivity.
Defined.

(** A half-transparent white pixel is blended, not replaced. *)
Example composite_half_transparent :
  paste_self_masked (Image_new_RGB (1, 1)%nat (12, 14, 15))
                    (convert_RGBA half_transparent_icon)
  = {| im_size := (1, 1)%nat; im_data := ModeRGB [(134, 135, 135)] |}.
Proof. reflexivity. Qed.

(** ** Programs that leave the store alone *)

Lemma same_store_refl w : same_store w w.
Proof. by repeat split. Qed.

Lemma same_store_trans w1 w2 w3 :
  same_store w1 w2 → same_store w2 w3 → same_store w1 w3.
Proof.
  intros (? & ? & ? & ?) (? & ? & ? & ?). repeat split; congruence.
Qed.

Lemma keeps_store_ret {A} (a : A) : keeps_store (ret a).
Proof. intros w. apply same_store_refl. Qed.

Lemma keeps_store_raise {A} e : keeps_store (raise (A := A) e).
Proof. intros w. apply same_store_refl. Qed.

Lemma keeps_store_lift {A} (r : result A) : keeps_store (lift r).
Proof. intros w. apply same_store_refl. Qed.

Lemma keeps_store_print m : keeps_store (print m).
Proof. intros w. by repeat split. Qed.

Lemma keeps_store_listdir d : keeps_store (os_listdir d).
Proof. intros w. apply same_store_refl. Qed.

Lemma keeps_store_exists p : keeps_store (os_path_exists p).
Proof. intros w. apply same_store_refl. Qed.

Lemma keeps_store_getsize `{Pillow} p : keeps_store (os_path_getsize p).
Proof. intros w. apply same_store_refl. Qed.

Lemma keeps_store_open p : keeps_store (Image_open p).
Proof.
  intros w. unfold Image_open.
  destruct (files w !! p) as [[]|]; apply same_store_refl.
Qed.

Lemma keeps_store_bind {A B} (m : prog A) (f : A → prog B) :
  keeps_store m → (∀ a, keeps_store (f a)) → keeps_store (bind m f).
Proof.
  intros Hm Hf w. unfold bind. specialize (Hm w).
  destruct (m w) as [[a|e] w']; simpl in *; [|done].
  eapply same_store_trans; [exact Hm|]. apply Hf.
Qed.

Lemma keeps_store_load_frames `{Pillow} total i names :
  keeps_store (load_frames total i names).
Proof.
  revert i. induction names as [|f names IH]; intros i.
  - apply keeps_store_ret.
  - cbn [load_frames]. apply keeps_store_bind; [apply keeps_store_open|].
    intros img. apply keeps_store_bind.
    + case_match; [apply keeps_store_print|apply keeps_store_ret].
    + intros _. apply keeps_store_bind; [apply IH|].
      intros frames. apply keeps_store_ret.
Qed.

(** ** The fallback encoder on a directory without frames *)

(** C4: when no name in the frame directory ends in [.png], the fallback
    encoder prints the "No frames found!" message and returns normally;
    no file is written. *)
Theorem no_frames_reported {pil : Pillow} (w : world) (names : list pystr) :
  listing w !! frames_dir = Some names →
  List.filter (endswith (str ".png")) names = [] →
  ∃ w', create_gif_from_frames w = (Ok tt, w')
        ∧ stdout w' = stdout w ++ [MsgNoFrames]
        ∧ files w' = files w
        ∧ files w' !! output_file = files w !! output_file.
Proof.
  intros Hl Hf.
  unfold create_gif_from_frames, bind, enter_fallback, os_listdir, lift.
  cbn -[frames_dir str]. rewrite Hl. cbn -[frames_dir str]. rewrite Hf.
  cbn. eexists. repeat split; reflexivity.
Qed.

Lemma no_frames_reported_witness :
  ∃ w', create_gif_from_frames (H := sample_pillow) no_png_world = (Ok tt, w')
        ∧ stdout w' = stdout no_png_world ++ [MsgNoFrames]
        ∧ files w' = files no_png_world
        ∧ files w' !! output_file = files no_png_world !! output_file.
Proof.
  apply (no_frames_reported (pil := sample_pillow) no_png_world
           [str "notes.txt"; str "frame_1.jpg"]).
  - apply lookup_singleton_eq.
  - reflexivity.
Defined.

(** ** Choosing the encoder *)

Lemma keeps_calls_of_store {A} (p : prog A) : keeps_store p → keeps_calls p.
Proof. intros Hp w. by destruct (Hp w) as (_ & _ & _ & ?). Qed.

Lemma keeps_calls_bind {A B} (m : prog A) (f : A → prog B) :
  keeps_calls m → (∀ a, keeps_calls (f a)) → keeps_calls (bind m f).
Proof.
  intros Hm Hf w. unfold bind. specialize (Hm w).
  destruct (m w) as [[a|e] w']; simpl in *; [|done].
  by rewrite Hf.
Qed.

Lemma keeps_calls_save_gif first path rest duration loop :
  keeps_calls (Image_save_gif first path rest duration loop).
Proof. by intros w. Qed.

(** Whatever it finds, the fallback encoder registers exactly one entry. *)
Lemma create_gif_from_frames_calls {pil : Pillow} w :
  fallback_calls (create_gif_from_frames w).2 = S (fallback_calls w).
Proof.
  unfold create_gif_from_frames.
  unfold bind at 1. cbn [enter_fallback].
  match goal with
  | |- fallback_calls (?p ?w0).2 = _ =>
      assert (keeps_calls p) as Hp; [|by rewrite Hp]
  end.
  apply keeps_calls_bind;
    [apply keeps_calls_of_store, keeps_store_listdir|intros names].
  apply keeps_calls_bind;
    [apply keeps_calls_of_store, keeps_store_lift|intros [|f sorted]].
  { apply keeps_calls_of_store, keeps_store_print. }
  apply keeps_calls_bind;
    [apply keeps_calls_of_store, keeps_store_print|intros _].
  apply keeps_calls_bind;
    [apply keeps_calls_of_store, keeps_store_load_frames|intros [|first rest]].
  { apply keeps_calls_bind;
      [apply keeps_calls_of_store, keeps_store_print|intros _].
    apply keeps_calls_of_store, keeps_store_raise. }
  apply keeps_calls_bind;
    [apply keeps_calls_of_store, keeps_store_print|intros _].
  apply keeps_calls_bind; [apply keeps_calls_save_gif|intros _].
  apply keeps_calls_bind;
    [apply keeps_calls_of_store, keeps_store_getsize|intros size].
  apply keeps_calls_of_store, keeps_store_print.
Qed.

(** The size check accepts exactly the sizes from [min_valid_size] on. *)
Lemma size_check_threshold size :
  (size >? size_limit) = true ↔ min_valid_size <= size.
Proof. unfold min_valid_size, size_limit. rewrite Z.gtb_ltb, Z.ltb_lt. lia. Qed.

Lemma generate_gif_unfold {pil : Pillow} {gifos : Gifos} w outcome w1 :
  gen_gif (print MsgGenerating w).2 = (outcome, w1) →
  generate_gif w =
    match outcome with
    | Raise e => (print (MsgFfmpegFailed e) >> create_gif_from_frames) w1
    | Ok _ =>
        match files w1 !! output_file with
        | Some f =>
            if file_bytes f >? size_limit then print MsgFfmpegOk w1
            else (print (MsgFfmpegFailed GenericException)
                  >> create_gif_from_frames) w1
        | None =>
            (print (MsgFfmpegFailed GenericException)
             >> create_gif_from_frames) w1
        end
    end.
Proof.
  intros Hgen. unfold generate_gif.
  unfold bind at 1. cbn [print]. unfold try_except.
  unfold bind at 1. cbn [print snd] in Hgen. rewrite Hgen.
  destruct outcome as [[]|e]; [|done].
  unfold bind at 1. unfold os_path_exists at 1. cbn [fst snd].
  unfold os_path_getsize.
  destruct (files w1 !! output_file) as [f|] eqn:Hf.
  - rewrite bool_decide_eq_true_2 by eauto.
    unfold bind at 1. unfold bind at 1. rewrite Hf. cbn.
    destruct (file_bytes f >? size_limit); done.
  - rewrite bool_decide_eq_false_2 by (intros [? ?]; done).
    unfold bind at 1. cbn. done.
Qed.

Lemma fallback_after_failure_calls {pil : Pillow} e w1 :
  fallback_calls ((print (MsgFfmpegFailed e) >> create_gif_from_frames) w1).2
  = S (fallback_calls w1).
Proof. unfold bind. cbn [print]. by rewrite create_gif_from_frames_calls. Qed.

(** C3: after the primary encoder has run, the fallback encoder is entered
    exactly when the primary encoder raised, or [output.gif] does not
    exist, or its size is below the smallest accepted size; in that case
    the block continues as the fallback encoder (on its directory
    [frames]), otherwise it only prints the success message. *)
Theorem fallback_iff_primary_failed {pil : Pillow} {gifos : Gifos}
    (w : world) (outcome : result unit) (w1 : world) :
  gen_gif (print MsgGenerating w).2 = (outcome, w1) →
  ∃ r w2,
    generate_gif w = (r, w2)
    ∧ (primary_failed outcome w1 ↔ fallback_calls w2 = S (fallback_calls w1))
    ∧ (¬ primary_failed outcome w1 ↔ fallback_calls w2 = fallback_calls w1)
    ∧ (primary_failed outcome w1 →
       ∃ e, (r, w2) = create_gif_from_frames (print (MsgFfmpegFailed e) w1).2)
    ∧ (¬ primary_failed outcome w1 → (r, w2) = print MsgFfmpegOk w1).
Proof.
  intros Hgen. rewrite (generate_gif_unfold w outcome w1 Hgen).
  assert (∀ e, primary_failed outcome w1 →
    let res := (print (MsgFfmpegFailed e) >> create_gif_from_frames) w1 in
    (primary_failed outcome w1 ↔ fallback_calls res.2 = S (fallback_calls w1))
    ∧ (¬ primary_failed outcome w1 ↔ fallback_calls res.2 = fallback_calls w1)
    ∧ (primary_failed outcome w1 →
       ∃ e', (res.1, res.2)
             = create_gif_from_frames (print (MsgFfmpegFailed e') w1).2)
    ∧ (¬ primary_failed outcome w1 → (res.1, res.2) = print MsgFfmpegOk w1))
    as Hfail.
  { intros e Hf res. subst res. rewrite fallback_after_failure_calls.
    repeat split; try done; try lia.
    intros _. exists e. unfold bind. cbn [print snd].
    by destruct create_gif_from_frames. }
  destruct outcome as [[]|e].
  - destruct (files w1 !! output_file) as [f|] eqn:Hf.
    + destruct (file_bytes f >? size_limit) eqn:Hsize.
      * assert (¬ primary_failed (Ok ()) w1) as Hok.
        { intros [[e ?]|[?|(f' & Hf' & Hlt)]]; try congruence.
          apply size_check_threshold in Hsize. rewrite Hf in Hf'.
          injection Hf' as <-. lia. }
        exists (Ok ()), (print MsgFfmpegOk w1).2.
        split; [done|]. cbn [print snd fallback_calls].
        repeat split; try done; try lia.
      * assert (primary_failed (Ok ()) w1) as Hbad.
        { right. right. exists f. split; [done|].
          destruct (Z.lt_ge_cases (file_bytes f) min_valid_size) as [|Hge];
            [done|].
          apply size_check_threshold in Hge. congruence. }
        specialize (Hfail GenericException Hbad).
        destruct ((print _ >> _) w1) as [r w2]. exists r, w2. by split.
    + assert (primary_failed (Ok ()) w1) as Hbad by (right; by left).
      specialize (Hfail GenericException Hbad).
      destruct ((print _ >> _) w1) as [r w2]. exists r, w2. by split.
  - assert (primary_failed (Raise e) w1) as Hbad by (left; eauto).
    specialize (Hfail e Hbad).
    destruct ((print _ >> _) w1) as [r w2]. exists r, w2. by split.
Qed.

Section Samples.
#[local] Existing Instance sample_pillow.
#[local] Existing Instance truncating_ffmpeg.

Lemma fallback_iff_primary_failed_witness :
  primary_failed (Ok tt) truncated_world
  ∧ ∃ r w2,
      generate_gif gifos_sample_world = (r, w2)
      ∧ (primary_failed (Ok tt) truncated_world
         ↔ fallback_calls w2 = S (fallback_calls truncated_world))
      ∧ (¬ primary_failed (Ok tt) truncated_world
         ↔ fallback_calls w2 = fallback_calls truncated_world)
      ∧ (primary_failed (Ok tt) truncated_world →
         ∃ e, (r, w2)
              = create_gif_from_frames
                  (print (MsgFfmpegFailed e) truncated_world).2)
      ∧ (¬ primary_failed (Ok tt) truncated_world →
         (r, w2) = print MsgFfmpegOk truncated_world).
Proof.
  split.
  - right. right. exists (OtherFile 512). split.
    + apply lookup_insert_eq.
    + reflexivity.
  - apply (fallback_iff_primary_failed gifos_sample_world (Ok tt)
             truncated_world).
    reflexivity.
Defined.

End Samples.

(** ** The order decided by [key_lt] *)

Lemma token_code_inj a b : token_code a = token_code b → a = b.
Proof. destruct a, b; simpl; congruence. Qed.

#[global] Instance token_lexico_po : StrictOrder (@lexico token _).
Proof.
  split.
  - intros x Hx. by apply (irreflexivity lexico (token_code x)).
  - intros x y z Hxy Hyz. unfold lexico, token_lexico in *.
    by etrans.
Qed.

#[global] Instance token_lexico_trichotomy : TrichotomyT (@lexico token _).
Proof.
  intros a b.
  destruct (trichotomyT lexico (token_code a) (token_code b)) as [[H|H]|H].
  - left. left. exact H.
  - left. right. by apply token_code_inj.
  - right. exact H.
Defined.

Lemma list_lexico_cons `{Lexico A} (x y : A) (a b : list A) :
  lexico (x :: a) (y :: b) ↔ lexico x y ∨ (x = y ∧ lexico a b).
Proof. done. Qed.

Lemma N_lexico_lt (x y : N) : lexico x y ↔ (x < y)%N.
Proof. done. Qed.

Lemma str_lt_lexico (a b : pystr) : str_lt a b = true ↔ lexico a b.
Proof.
  revert b. induction a as [|x a IH]; intros [|y b]; simpl; try done.
  rewrite list_lexico_cons, N_lexico_lt.
  destruct (N.eqb_spec x y) as [->|Hne].
  - rewrite IH. split; [auto|]. intros [?|[_ ?]]; [lia|done].
  - rewrite N.ltb_lt. split; [auto|]. intros [?|[? _]]; done.
Qed.

Lemma token_eq_true x y : token_eq x y = true → x = y.
Proof.
  destruct x, y; simpl; try done.
  - intros ?%Z.eqb_eq. by subst.
  - intros ?%bool_decide_eq_true. by subst.
Qed.

Lemma token_lexico_int (x y : Z) : lexico (TInt x) (TInt y) ↔ x < y.
Proof.
  split.
  - intros [[]|[_ [?|[_ []]]]]. done.
  - intros ?. right. split; [done|]. by left.
Qed.

Lemma token_lexico_str (x y : pystr) : lexico (TStr x) (TStr y) ↔ lexico x y.
Proof.
  split.
  - intros [[]|[_ [H|[_ ?]]]]; [|done]. by apply Z.lt_irrefl in H.
  - intros ?. right. split; [done|]. right. by split.
Qed.

Lemma token_lt_lexico x y r :
  token_lt x y = Ok r → (r = true ↔ lexico x y).
Proof.
  destruct x as [x|x], y as [y|y]; simpl; try done; intros [= <-].
  - by rewrite Z.ltb_lt, token_lexico_int.
  - by rewrite str_lt_lexico, token_lexico_str.
Qed.

Lemma key_lt_lexico (a b : list token) r :
  key_lt a b = Ok r → (r = true ↔ lexico a b).
Proof.
  revert b r. induction a as [|x a IH]; intros [|y b] r; simpl;
    try (intros [= <-]; done).
  rewrite list_lexico_cons.
  destruct (token_eq x y) eqn:Heq.
  - apply token_eq_true in Heq as ->. intros Hlt. rewrite (IH _ _ Hlt).
    split; [auto|]. intros [H|[_ ?]]; [|done].
    by apply (irreflexivity lexico) in H.
  - intros Hlt. rewrite (token_lt_lexico _ _ _ Hlt).
    split; [auto|]. intros [?|[-> _]]; [done|].
    by rewrite token_eq_refl in Heq.
Qed.

(** ** The sort *)

Section SortCorrect.
Context {K A : Type} (lt : K → K → result bool).
Context (R : relation K) `{!StrictOrder R} (tri : TrichotomyT R).
Context (good : K → Prop).
Hypothesis lt_decides :
  ∀ a b, good a → good b → ∃ r, lt a b = Ok r ∧ (r = true ↔ R a b).

Lemma not_after_trans (p q r : K * A) :
  not_after R p q → not_after R q r → not_after R p r.
Proof.
  unfold not_after. intros Hpq Hqr Hrp.
  destruct (tri p.1 q.1) as [[Hlt|Heq]|Hgt]; [|congruence|done].
  destruct (tri q.1 r.1) as [[Hlt'|Heq']|Hgt']; [|congruence|done].
  apply (irreflexivity R p.1). by do 2 (etrans; [eassumption|]).
Qed.

Lemma insert_sorted_correct (x : K * A) l :
  good x.1 → Forall (λ p, good p.1) l → StronglySorted (not_after R) l →
  ∃ l', insert_sorted lt x l = Ok l'
        ∧ l' ≡ₚ x :: l ∧ StronglySorted (not_after R) l'.
Proof.
  intros Hx Hl Hs. induction Hs as [|y l Hs IH Hy].
  - exists [x]. repeat split; [done|]. repeat constructor.
  - apply Forall_cons in Hl as [Hgy Hl].
    destruct (lt_decides y.1 x.1 Hgy Hx) as (r & Hr & Hiff).
    cbn [insert_sorted]. rewrite Hr. cbn. destruct r.
    + destruct (IH Hl) as (l' & -> & Hperm & Hs'). cbn.
      exists (y :: l'). split; [done|]. split.
      * rewrite Hperm. apply perm_swap.
      * constructor; [done|]. rewrite Hperm. constructor; [|done].
        unfold not_after. intros Hxy.
        apply (irreflexivity R y.1). etrans; [by apply Hiff|done].
    + exists (x :: y :: l). split; [done|]. split; [done|].
      assert (not_after R x y) as Hxy.
      { unfold not_after. intros H%Hiff. done. }
      constructor; [by constructor|]. constructor; [done|].
      eapply Forall_impl; [exact Hy|]. intros z Hz.
      by eapply not_after_trans.
Qed.

Lemma sort_keyed_correct (l : list (K * A)) :
  Forall (λ p, good p.1) l →
  ∃ l', sort_keyed lt l = Ok l' ∧ l' ≡ₚ l ∧ StronglySorted (not_after R) l'.
Proof.
  induction 1 as [|x l Hx Hl (l' & Hsort & Hperm & Hs)].
  - exists []. repeat split; [done|]. constructor.
  - cbn [sort_keyed]. rewrite Hsort. cbn.
    destruct (insert_sorted_correct x l') as (l'' & Hins & Hperm' & Hs');
      [done|by rewrite Hperm|done|].
    exists l''. split; [done|]. split; [|done].
    by rewrite Hperm', Hperm.
Qed.

End SortCorrect.

Lemma key_lt_decides a b :
  alternating true a → alternating true b →
  ∃ r, key_lt a b = Ok r ∧ (r = true ↔ lexico a b).
Proof.
  intros Ha Hb. destruct (key_lt_alternating true a b Ha Hb) as [r Hr].
  exists r. split; [done|]. by apply key_lt_lexico.
Qed.

Lemma keyed_ascii names :
  Forall ascii_str names →
  mapM (M := result) (λ x, k ← natural_sort_key x; Ok (k, x)) names
  = Ok (map (λ x, (ascii_key x, x)) names).
Proof.
  induction 1 as [|x names Hx Hnames IH]; [done|].
  cbn [map]. apply mapM_cons_Ok; [|done].
  by rewrite natural_sort_key_ascii.
Qed.

Lemma name_le_of_keys p q :
  p.1 = ascii_key p.2 → ascii_str p.2 →
  q.1 = ascii_key q.2 → ascii_str q.2 →
  not_after (A := pystr) lexico p q → name_le p.2 q.2.
Proof.
  intros Hp Hap Hq Haq Hpq. exists p.1, q.1.
  rewrite Hp, Hq. split; [by apply natural_sort_key_ascii|].
  split; [by apply natural_sort_key_ascii|].
  destruct (key_lt_decides (ascii_key q.2) (ascii_key p.2))
    as ([] & Hr & Hiff); [apply tokens_of_alternating..| |done].
  exfalso. apply Hpq. rewrite Hp, Hq. by apply Hiff.
Qed.

Lemma sorted_names l :
  Forall (λ p : list token * pystr, p.1 = ascii_key p.2 ∧ ascii_str p.2) l →
  StronglySorted (not_after lexico) l →
  StronglySorted name_le (map snd l).
Proof.
  intros Hl Hs. induction Hs as [|p l Hs IH Hp]; [constructor|].
  apply Forall_cons in Hl as [[Hkp Hap] Hl].
  cbn [map]. constructor; [by apply IH|].
  apply Forall_map. rewrite Forall_forall in Hp, Hl. apply Forall_forall.
  intros q Hq. destruct (Hl q Hq) as [Hkq Haq].
  apply name_le_of_keys; auto.
Qed.

(** Sorting ASCII names never raises, and returns the names in key
    order. *)
Lemma sort_natural_ascii names :
  Forall ascii_str names →
  ∃ sorted, sort_natural names = Ok sorted
            ∧ sorted ≡ₚ names
            ∧ StronglySorted name_le sorted
            ∧ Forall ascii_str sorted.
Proof.
  intros Hnames. unfold sort_natural, sort_by_key.
  rewrite (keyed_ascii names Hnames). cbn.
  destruct (sort_keyed_correct key_lt lexico (trichotomyT lexico) (alternating true)
              key_lt_decides (map (λ x, (ascii_key x, x)) names))
    as (l' & -> & Hperm & Hs).
  { apply Forall_map, Forall_forall. intros x _. apply tokens_of_alternating. }
  cbn. exists (map snd l').
  assert (map snd l' ≡ₚ names) as Hperm'.
  { rewrite Hperm, map_map. cbn. by rewrite map_id. }
  split; [done|]. split; [done|]. split.
  - apply sorted_names; [|done]. rewrite Hperm.
    apply Forall_map. eapply Forall_impl; [exact Hnames|]. by intros x Hx.
  - by rewrite Hperm'.
Qed.

(** ** The fallback encoder on a directory of frames *)




Lemma bind_run {A B} (m : prog A) (f : A → prog B) w a w' :
  m w = (Ok a, w') → bind m f w = f a w'.
Proof. intros Hm. unfold bind. by rewrite Hm. Qed.




Lemma frame_duration_value : frame_duration = 66.
Proof. reflexivity. Qed.








Section SampleRuns.
#[local] Existing Instance sample_pillow.



(** The output of the sample run, in full. *)
Example sample_run_output :
  ∃ w', create_gif_from_frames gifos_sample_world = (Ok tt, w')
        ∧ files w' !! output_file
          = Some (GifFile
                    {| gif_frames :=
                         [(quantize transparent_icon 256, 66);
                          (quantize half_transparent_icon 256, 66);
                          (quantize transparent_icon 256, 66)];
                       gif_loop := 0 |})
        ∧ stdout w' = [MsgFound 3 15; MsgSaving; MsgSize 920].
Proof.
  eexists. split; [vm_compute; reflexivity|].
  split; vm_compute; reflexivity.
Qed.


End SampleRuns.

(** * Further properties *)

(** ** More on [hex_to_rgb] *)

Lemma int_raises_ValueError base text e : int base text = Raise e → e = ValueError.
Proof.
  unfold int. destruct (split_sign _) as [sign s].
  destruct (digits _ _ _ _); cbn; congruence.
Qed.

Lemma byte_reads_back_all : forallb byte_reads_back (seq 0 256) = true.
Proof. vm_compute. reflexivity. Qed.

Lemma int16_hex2 v : 0 <= v < 256 → int 16 (hex2 v) = Ok v.
Proof.
  intros Hv. pose proof byte_reads_back_all as Hall.
  rewrite forallb_forall in Hall.
  specialize (Hall (Z.to_nat v)). unfold byte_reads_back in Hall.
  rewrite Z2Nat.id in Hall by lia.
  destruct (int 16 (hex2 v)) as [v'|].
  - f_equal. apply Z.eqb_eq, Hall, in_seq. lia.
  - assert (false = true) by (apply Hall, in_seq; lia). done.
Qed.

Lemma hex_color_read s :
  is_hex_color s = true →
  ∃ r g b, hex_to_rgb s = Ok (r, g, b)
           ∧ channels_in_range (r, g, b)
           ∧ rgb_to_hex (r, g, b) = lower s.
Proof.
  intros (h1 & h2 & h3 & h4 & h5 & h6 & -> & Hall)%is_hex_color_inv.
  repeat (apply Forall_cons in Hall as [? Hall]).
  destruct (int16_pair h1 h2) as (r & Hr & Hrr & Hr'); [done..|].
  destruct (int16_pair h3 h4) as (g & Hg & Hgr & Hg'); [done..|].
  destruct (int16_pair h5 h6) as (b & Hb & Hbr & Hb'); [done..|].
  exists r, g, b. split; [by apply hex_to_rgb_slices|].
  split; [cbn; lia|].
  unfold rgb_to_hex. rewrite Hr', Hg', Hb'. reflexivity.
Qed.

Lemma hex_char_is_hex_digit d : 0 <= d < 16 → is_hex_digit (hex_char d) = true.
Proof.
  intros Hd.
  assert (d = 0 ∨ d = 1 ∨ d = 2 ∨ d = 3 ∨ d = 4 ∨ d = 5 ∨ d = 6 ∨ d = 7
          ∨ d = 8 ∨ d = 9 ∨ d = 10 ∨ d = 11 ∨ d = 12 ∨ d = 13 ∨ d = 14
          ∨ d = 15) as Hcases by lia.
  repeat (destruct Hcases as [->|Hcases]; [reflexivity|]). by subst.
Qed.

Lemma hex_to_rgb_of_rendering r g b :
  channels_in_range (r, g, b) → hex_to_rgb (rgb_to_hex (r, g, b)) = Ok (r, g, b).
Proof.
  intros (Hr & Hg & Hb). unfold rgb_to_hex, hex2. cbn [app].
  apply hex_to_rgb_slices.
  - apply hex_char_is_hex_digit. split; [apply Z.div_pos|apply Z.div_lt_upper_bound]; lia.
  - apply (int16_hex2 r). lia.
  - apply (int16_hex2 g). lia.
  - apply (int16_hex2 b). lia.
Qed.

(** X1: every channel that [hex_to_rgb] reads from a [#RRGGBB] string is a
    byte. *)
Theorem hex_to_rgb_channels_are_bytes (s : pystr) (c : rgb) :
  is_hex_color s = true → hex_to_rgb s = Ok c → channels_in_range c.
Proof.
  intros Hs Hc. destruct (hex_color_read s Hs) as (r & g & b & Hrgb & Hrange & _).
  rewrite Hrgb in Hc. by injection Hc as <-.
Qed.

Lemma hex_to_rgb_channels_are_bytes_witness :
  channels_in_range (255, 128, 0).
Proof.
  apply (hex_to_rgb_channels_are_bytes (str "#FF8000") (255, 128, 0));
    reflexivity.
Defined.

(** X2: whatever follows the six digits is ignored, so an eight-digit
    colour with an alpha part reads as its first six digits. *)
Theorem hex_to_rgb_ignores_tail (s t : pystr) :
  is_hex_color s = true → hex_to_rgb (s ++ t) = hex_to_rgb s.
Proof.
  intros (h1 & h2 & h3 & h4 & h5 & h6 & -> & Hall)%is_hex_color_inv.
  apply Forall_cons in Hall as [H1 _].
  unfold hex_to_rgb. cbn [app lstrip]. rewrite N.eqb_refl.
  cbn [lstrip]. rewrite (is_hex_digit_not_hash h1) by done.
  reflexivity.
Qed.

Lemma hex_to_rgb_ignores_tail_witness :
  hex_to_rgb (str "#0c0e0f" ++ str "80") = hex_to_rgb (str "#0c0e0f").
Proof.
  apply (hex_to_rgb_ignores_tail (str "#0c0e0f") (str "80")). reflexivity.
Defined.

Lemma hex_to_rgb_only_ValueError s e : hex_to_rgb s = Raise e → e = ValueError.
Proof.
  unfold hex_to_rgb. cbv zeta.
  destruct (int 16 (slice 0 2 (lstrip 35 s))) as [r|e1] eqn:Hr;
    cbn [mbind result_bind];
    [|intros [= <-]; by eapply int_raises_ValueError].
  destruct (int 16 (slice 2 4 (lstrip 35 s))) as [g|e2] eqn:Hg;
    cbn [mbind result_bind];
    [|intros [= <-]; by eapply int_raises_ValueError].
  destruct (int 16 (slice 4 6 (lstrip 35 s))) as [b|e3] eqn:Hb;
    cbn [mbind result_bind];
    [done|intros [= <-]; by eapply int_raises_ValueError].
Qed.

(** X3: [hex_to_rgb] raises nothing but [ValueError], and it does raise it
    when fewer than five characters follow the leading [#]s (the short
    form [#fff], the empty string). *)
Theorem hex_to_rgb_errors (s : pystr) :
  (∀ e, hex_to_rgb s = Raise e → e = ValueError)
  ∧ ((length (lstrip 35 s) ≤ 4)%nat → hex_to_rgb s = Raise ValueError).
Proof.
  split; [apply hex_to_rgb_only_ValueError|].
  intros Hlen.
  assert (slice 4 6 (lstrip 35 s) = []) as Hempty.
  { unfold slice. by rewrite drop_ge. }
  destruct (hex_to_rgb s) as [c|e] eqn:Hs;
    [|by rewrite (hex_to_rgb_only_ValueError s e Hs)].
  exfalso. revert Hs. unfold hex_to_rgb. cbv zeta. rewrite Hempty.
  destruct (int 16 (slice 0 2 (lstrip 35 s))); cbn [mbind result_bind];
    [|done].
  destruct (int 16 (slice 2 4 (lstrip 35 s))); cbn [mbind result_bind]; done.
Qed.

Lemma hex_to_rgb_errors_witness :
  hex_to_rgb (str "#fff") = Raise ValueError.
Proof.
  apply (proj2 (hex_to_rgb_errors (str "#fff"))). vm_compute. lia.
Defined.

(** Five characters are enough: the last channel is then read from one
    digit. *)
Example hex_five_digits : hex_to_rgb (str "#12345") = Ok (18, 52, 5).
Proof. reflexivity. Qed.

(** X4: the colour read does not depend on the case of the digits. *)
Theorem hex_to_rgb_case_insensitive (s : pystr) :
  is_hex_color s = true → hex_to_rgb (lower s) = hex_to_rgb s.
Proof.
  intros Hs. destruct (hex_color_read s Hs) as (r & g & b & Hc & Hrange & Hfmt).
  rewrite Hc, <- Hfmt. by apply hex_to_rgb_of_rendering.
Qed.

Lemma hex_to_rgb_case_insensitive_witness :
  hex_to_rgb (lower (str "#0C0E0F")) = hex_to_rgb (str "#0C0E0F").
Proof. apply (hex_to_rgb_case_insensitive (str "#0C0E0F")). reflexivity. Defined.

(** X5: every triple of bytes is read back from its [#rrggbb] rendering,
    so [hex_to_rgb] reaches every colour. *)
Theorem hex_to_rgb_reads_back (c : rgb) :
  channels_in_range c →
  is_hex_color (rgb_to_hex c) = true ∧ hex_to_rgb (rgb_to_hex c) = Ok c.
Proof.
  destruct c as [[r g] b]. intros Hc. split; [|by apply hex_to_rgb_of_rendering].
  destruct Hc as (Hr & Hg & Hb). unfold rgb_to_hex, hex2, is_hex_color.
  cbn [app length forallb]. rewrite N.eqb_refl. cbn [andb Nat.eqb].
  rewrite !hex_char_is_hex_digit; [done|..];
    first [apply Z.mod_pos_bound; lia
          |split; [apply Z.div_pos|apply Z.div_lt_upper_bound]; lia].
Qed.

Lemma hex_to_rgb_reads_back_witness :
  is_hex_color (rgb_to_hex (12, 14, 15)) = true
  ∧ hex_to_rgb (rgb_to_hex (12, 14, 15)) = Ok (12, 14, 15).
Proof. apply (hex_to_rgb_reads_back (12, 14, 15)). cbn. lia. Defined.

(** ** More on [get_bg_color] *)

Lemma get_bg_color_selected cfg :
  get_bg_color cfg = hex_to_rgb (selected_bg_hex cfg).
Proof. reflexivity. Qed.

Lemma selected_bg_hex_consulted cfg :
  selected_bg_hex cfg
  = default default_bg_hex (consulted_entry cfg ≫= bg_of).
Proof.
  unfold selected_bg_hex, consulted_entry.
  destruct (local_colors cfg !! color_scheme cfg) as [entry|]; [done|].
  destruct (gifos_colors cfg !! color_scheme cfg) as [entry|]; [done|].
  cbn. by rewrite bg_of_empty.
Qed.

Lemma selected_bg_hex_valid cfg :
  table_valid (local_colors cfg) → table_valid (gifos_colors cfg) →
  is_hex_color (selected_bg_hex cfg) = true.
Proof.
  intros Vl Vg. rewrite selected_bg_hex_consulted. unfold consulted_entry.
  destruct (local_colors cfg !! color_scheme cfg) as [entry|] eqn:Hl; cbn.
  - destruct (bg_of entry) as [h|] eqn:Hbg; [|done]. by eapply Vl.
  - destruct (gifos_colors cfg !! color_scheme cfg) as [entry|] eqn:Hg;
      cbn; [|done].
    destruct (bg_of entry) as [h|] eqn:Hbg; [|done]. by eapply Vg.
Qed.

(** X6: with tables whose background entries are [#RRGGBB] strings the
    resolved colour is a triple of bytes, for every scheme name. *)
Theorem get_bg_color_is_rgb (cfg : config) :
  table_valid (local_colors cfg) → table_valid (gifos_colors cfg) →
  ∃ c, get_bg_color cfg = Ok c ∧ channels_in_range c.
Proof.
  intros Vl Vg. rewrite get_bg_color_selected.
  destruct (hex_color_read _ (selected_bg_hex_valid cfg Vl Vg))
    as (r & g & b & Hc & Hrange & _).
  by exists (r, g, b).
Qed.

Lemma get_bg_color_is_rgb_witness :
  ∃ c, get_bg_color cfg_library_only = Ok c ∧ channels_in_range c.
Proof.
  apply (get_bg_color_is_rgb cfg_library_only);
    by apply table_valid_singleton.
Defined.



(** When the configured scheme is a key of the local table, the library
    table has no influence on the result. *)
Lemma get_bg_color_ignores_library (cfg : config) (library : color_table) :
  is_Some (local_colors cfg !! color_scheme cfg) →
  get_bg_color
    {| general := general cfg; local_colors := local_colors cfg;
       gifos_colors := library |}
  = get_bg_color cfg.
Proof.
  intros [entry Hl]. unfold get_bg_color, color_scheme in *.
  cbn [general local_colors gifos_colors]. by rewrite Hl.
Qed.

Lemma get_bg_color_ignores_library_witness :
  get_bg_color
    {| general := general cfg_both; local_colors := local_colors cfg_both;
       gifos_colors := ∅ |}
  = get_bg_color cfg_both.
Proof.
  apply (get_bg_color_ignores_library cfg_both ∅).
  exists (scheme_with_bg (str "#112233")). apply lookup_singleton_eq.
Defined.

(** ** More on the natural sort *)







(** *** Case *)

Lemma lower_char_cases c :
  lower_char c = c
  ∨ (lower_char c = (c + 32)%N ∧ (65 <= c <= 90)%N)
  ∨ (lower_char c = (c + 32)%N ∧ (192 <= c)%N).
Proof.
  unfold lower_char, between.
  split_compare; cbn [andb negb]; lia.
Qed.

Lemma lower_char_digit c : is_ascii_digit (lower_char c) = is_ascii_digit c.
Proof.
  destruct (lower_char_cases c) as [->|[[-> Hc]|[-> Hc]]]; [done|..];
    unfold is_ascii_digit, between; split_compare; cbn [andb]; try done; lia.
Qed.

Lemma lower_char_ascii c : is_ascii c = true → is_ascii (lower_char c) = true.
Proof.
  destruct (lower_char_cases c) as [->|[[-> Hc]|[-> Hc]]]; [done|..];
    unfold is_ascii; split_compare; try done; lia.
Qed.

Lemma lower_digit_run d :
  Forall (λ c, is_ascii_digit c = true) d → lower d = d.
Proof.
  induction 1 as [|c d Hc Hd IH]; [done|].
  unfold lower in *. cbn [map]. rewrite IH. f_equal.
  revert Hc.
  destruct (lower_char_cases c) as [->|[[-> Hc]|[-> Hc]]]; [done|..];
    unfold is_ascii_digit, between; split_compare; cbn [andb]; try done; lia.
Qed.

Lemma re_split_digits_lower s :
  re_split_digits (lower s) = map lower (re_split_digits s).
Proof.
  induction s as [|c s IH]; [done|].
  cbn [lower map re_split_digits]. fold (lower s).
  rewrite IH, lower_char_digit.
  destruct (is_ascii_digit c) eqn:Hc,
    (re_split_digits s) as [|[|x t] [|run rest]]; cbn; done.
Qed.

Lemma tokens_of_lower b l :
  pieces_shape b l → tokens_of b (map lower l) = tokens_of b l.
Proof.
  revert b. induction l as [|p l IH]; intros b; [done|].
  intros [Hp Hl]. cbn [map tokens_of]. rewrite (IH _ Hl). f_equal.
  destruct b.
  - by rewrite lower_idemp.
  - destruct Hp as [_ Hp]. by rewrite lower_digit_run.
Qed.

(** X10: the key of an ASCII name does not depend on the case of its
    letters. *)
Theorem natural_sort_key_ignores_case (s : pystr) :
  ascii_str s → natural_sort_key (lower s) = natural_sort_key s.
Proof.
  intros Hs. rewrite (natural_sort_key_ascii s Hs).
  rewrite natural_sort_key_ascii.
  - rewrite re_split_digits_lower. f_equal.
    apply tokens_of_lower, re_split_digits_shape.
  - unfold ascii_str, lower. apply Forall_map.
    eapply Forall_impl; [exact Hs|]. apply lower_char_ascii.
Qed.

Lemma natural_sort_key_ignores_case_witness :
  natural_sort_key (lower (str "Frame_07.PNG"))
  = natural_sort_key (str "Frame_07.PNG").
Proof.
  apply (natural_sort_key_ignores_case (str "Frame_07.PNG")).
  repeat constructor.
Defined.

(** *** The order of the listing *)

Lemma sorted_perm_unique {A} (R : relation A) (l1 l2 : list A) :
  StronglySorted R l1 → StronglySorted R l2 → l1 ≡ₚ l2 →
  (∀ x y, x ∈ l1 → y ∈ l1 → R x y → R y x → x = y) →
  l1 = l2.
Proof.
  intros H1. revert l2.
  induction H1 as [|x l1 H1 IH Hx]; intros l2 H2 Hperm Hanti.
  - by apply Permutation_nil_l in Hperm.
  - destruct H2 as [|y l2 H2 Hy].
    { by apply Permutation_nil_r in Hperm. }
    assert (x = y) as <-.
    { assert (y ∈ x :: l1) as Hyin by (rewrite Hperm; left).
      assert (x ∈ y :: l2) as Hxin by (rewrite <- Hperm; left).
      apply elem_of_cons in Hyin as [->|Hyin]; [done|].
      apply elem_of_cons in Hxin as [->|Hxin]; [done|].
      rewrite Forall_forall in Hx, Hy.
      apply Hanti; [left|by right|..].
      - by apply Hx.
      - by apply Hy. }
    f_equal. apply IH; [done|by apply Permutation_cons_inv in Hperm|].
    intros a b Ha Hb. apply Hanti; by right.
Qed.

Lemma name_le_antisym a b :
  ascii_str a → ascii_str b → name_le a b → name_le b a →
  natural_sort_key a = natural_sort_key b.
Proof.
  intros Ha Hb (ka & kb & Hka & Hkb & Hlt) (kb' & ka' & Hkb' & Hka' & Hlt').
  rewrite Hka in Hka'. rewrite Hkb in Hkb'.
  injection Hka' as <-. injection Hkb' as <-.
  rewrite Hka, Hkb. f_equal.
  destruct (trichotomyT lexico ka kb) as [[H|H]|H]; [|done|].
  - apply (key_lt_lexico _ _ _ Hlt') in H. done.
  - apply (key_lt_lexico _ _ _ Hlt) in H. done.
Qed.

Lemma sort_natural_order_independent l1 l2 :
  Forall ascii_str l1 → l1 ≡ₚ l2 → distinct_keys l1 →
  sort_natural l1 = sort_natural l2.
Proof.
  intros Ha Hperm Hdist.
  destruct (sort_natural_ascii l1 Ha) as (s1 & -> & Hp1 & Hs1 & Ha1).
  destruct (sort_natural_ascii l2) as (s2 & -> & Hp2 & Hs2 & _).
  { by rewrite <- Hperm. }
  f_equal. apply (sorted_perm_unique name_le); [done..| |].
  - by rewrite Hp1, Hp2.
  - intros x y Hx Hy Hxy Hyx.
    rewrite Forall_forall in Ha1.
    apply Hdist; [by rewrite <- Hp1..|].
    apply name_le_antisym; auto.
Qed.





Section SampleRuns2.
#[local] Existing Instance sample_pillow.


End SampleRuns2.

(** ** What the fallback encoder leaves behind *)

Lemma bind_raise {A B} (m : prog A) (f : A → prog B) w e w' :
  m w = (Raise e, w') → bind m f w = (Raise e, w').
Proof. intros Hm. unfold bind. by rewrite Hm. Qed.




Section SampleRuns3.
#[local] Existing Instance sample_pillow.


End SampleRuns3.






Section SampleRuns4.
#[local] Existing Instance sample_pillow.


End SampleRuns4.

(** ** More on compositing *)

Lemma div255_bounds x lo hi :
  0 <= lo → hi <= 255 → lo * 255 <= x <= hi * 255 → lo <= div255 x <= hi.
Proof.
  intros Hlo Hhi Hx. unfold div255. rewrite !Z.shiftr_div_pow2 by lia.
  change (2 ^ 8) with 256. Z.div_mod_to_equations. lia.
Qed.

(** A blended band lies between the two bands it is blended from. *)
Lemma blend_between mask dst src lo hi :
  0 <= mask <= 255 → 0 <= lo → hi <= 255 →
  lo <= dst <= hi → lo <= src <= hi →
  lo <= blend mask dst src <= hi.
Proof.
  intros Hm Hlo Hhi Hd Hs. unfold blend. apply div255_bounds; [done..|].
  nia.
Qed.

Lemma blend_opaque dst src : 0 <= src <= 255 → blend 255 dst src = src.
Proof.
  intros Hs. unfold blend. rewrite Z.sub_diag, Z.mul_0_r, Z.add_0_l.
  by apply div255_exact.
Qed.

Lemma composite_pixels c img :
  composite c img
  = {| im_size := im_size img;
       im_data := ModeRGB (zip_with paste_pixel
                             (repeat c (fst (im_size img) * snd (im_size img)))
                             (rgba_pixels img)) |}.
Proof.
  unfold composite. cbv zeta. destruct (ensure_RGBA img) as [Hsize Hdata].
  cbv zeta in Hsize, Hdata. unfold paste_self_masked.
  rewrite Hdata, Hsize. reflexivity.
Qed.

Lemma paste_pixel_opaque c p :
  channels_in_range p.1 → p.2 = 255 → paste_pixel c p = p.1.
Proof.
  destruct c as [[r g] b], p as [[[sr sg] sb] a]. cbn.
  intros (Hr & Hg & Hb) ->. by rewrite !blend_opaque.
Qed.

Lemma zip_with_paste_opaque c n s :
  Forall (λ p, channels_in_range p.1 ∧ p.2 = 255) s → length s = n →
  zip_with paste_pixel (repeat c n) s = map fst s.
Proof.
  intros Hs. revert n. induction Hs as [|p s [Hp Ha] Hs IH]; intros n Hn.
  - cbn in Hn. by subst n.
  - cbn in Hn. subst n. cbn. rewrite paste_pixel_opaque by done.
    f_equal. by apply IH.
Qed.

(** X14: an image without transparency is not altered by compositing:
    whatever the background colour, the saved image has the colours of the
    source. *)
Theorem composite_opaque_image cfg w path img c t rest :
  files w !! path = Some (ImageFile img) →
  well_formed img → opaque img →
  tmp_names w = t :: rest →
  ∃ w', prepare_transparent_image cfg path (Some c) w = (Ok t, w')
        ∧ files w' !! t = Some (ImageFile (flatten img)).
Proof.
  intros Hfile Hwf Hop Htmp.
  destruct (prepare_transparent_image_run cfg w path img c t rest)
    as (w' & Hrun & Hout & _); [done..|].
  exists w'. split; [done|]. rewrite Hout. do 2 f_equal.
  change (paste_self_masked _ _) with (composite c img).
  rewrite composite_pixels. unfold flatten. do 2 f_equal.
  by apply zip_with_paste_opaque.
Qed.

Lemma composite_opaque_image_witness :
  ∃ w', prepare_transparent_image cfg_both (str "./icon.png")
          (Some (12, 14, 15)) (icon_world gray_icon)
        = (Ok (str "/tmp/tmpk3v9x2.png"), w')
        ∧ files w' !! str "/tmp/tmpk3v9x2.png"
          = Some (ImageFile (flatten gray_icon)).
Proof.
  apply (composite_opaque_image cfg_both (icon_world gray_icon)
           (str "./icon.png") gray_icon (12, 14, 15)
           (str "/tmp/tmpk3v9x2.png") []).
  - apply lookup_singleton_eq.
  - reflexivity.
  - repeat constructor; cbn; lia.
  - reflexivity.
Defined.

Lemma paste_pixel_in_range c p :
  channels_in_range c → channels_in_range p.1 → 0 <= p.2 <= 255 →
  channels_in_range (paste_pixel c p).
Proof.
  destruct c as [[r g] b], p as [[[sr sg] sb] a]. cbn.
  intros (Hr & Hg & Hb) (Hsr & Hsg & Hsb) Ha.
  split; [|split]; apply (blend_between _ _ _ 0 255); lia.
Qed.

Lemma zip_with_paste_in_range c n s :
  channels_in_range c →
  Forall (λ p, channels_in_range p.1 ∧ 0 <= p.2 <= 255) s →
  Forall channels_in_range (zip_with paste_pixel (repeat c n) s).
Proof.
  intros Hc Hs. revert n. induction Hs as [|p s [Hp Ha] Hs IH]; intros n.
  - destruct n; constructor.
  - destruct n; [constructor|]. cbn.
    constructor; [by apply paste_pixel_in_range|]. apply IH.
Qed.

(** X15: for every well-formed image with byte-valued pixels and every
    byte-valued background, the saved image is RGB, has the dimensions of
    the source, one pixel per position, and every channel is a byte. *)
Theorem composite_is_rgb cfg w path img c t rest :
  files w !! path = Some (ImageFile img) →
  well_formed img → valid_pixels img → channels_in_range c →
  tmp_names w = t :: rest →
  ∃ w' px,
    prepare_transparent_image cfg path (Some c) w = (Ok t, w')
    ∧ files w' !! t
      = Some (ImageFile {| im_size := im_size img; im_data := ModeRGB px |})
    ∧ length px = (fst (im_size img) * snd (im_size img))%nat
    ∧ Forall channels_in_range px.
Proof.
  intros Hfile Hwf Hvalid Hc Htmp.
  destruct (prepare_transparent_image_run cfg w path img c t rest)
    as (w' & Hrun & Hout & _); [done..|].
  change (paste_self_masked _ _) with (composite c img) in Hout.
  rewrite composite_pixels in Hout.
  eexists w', _. split; [done|]. split; [exact Hout|]. split.
  - rewrite length_zip_with, repeat_length, Hwf. lia.
  - by apply zip_with_paste_in_range.
Qed.

Lemma composite_is_rgb_witness :
  ∃ w' px,
    prepare_transparent_image cfg_both (str "./icon.png") (Some (12, 14, 15))
      (icon_world half_transparent_icon)
    = (Ok (str "/tmp/tmpk3v9x2.png"), w')
    ∧ files w' !! str "/tmp/tmpk3v9x2.png"
      = Some (ImageFile {| im_size := (1, 1)%nat; im_data := ModeRGB px |})
    ∧ length px = 1%nat
    ∧ Forall channels_in_range px.
Proof.
  apply (composite_is_rgb cfg_both (icon_world half_transparent_icon)
           (str "./icon.png") half_transparent_icon (12, 14, 15)
           (str "/tmp/tmpk3v9x2.png") []).
  - apply lookup_singleton_eq.
  - reflexivity.
  - repeat constructor; cbn; lia.
  - cbn. lia.
  - reflexivity.
Defined.

Lemma Image_open_world path w : (Image_open path w).2 = w.
Proof. unfold Image_open. by destruct (files w !! path) as [[]|]. Qed.

(** X16: [prepare_transparent_image] is all-or-nothing.  When it raises
    (unresolvable background, missing or unreadable source, no temporary
    name) nothing has changed, in particular no temporary file exists;
    when it returns, it has taken exactly the next temporary name and
    written exactly that file. *)
Theorem prepare_transparent_image_outcome cfg path bg w r w' :
  prepare_transparent_image cfg path bg w = (r, w') →
  match r with
  | Raise _ => w' = w
  | Ok t =>
      ∃ rest out,
        tmp_names w = t :: rest ∧ tmp_names w' = rest
        ∧ files w' = <[t := ImageFile out]> (files w)
        ∧ listing w' = listing w ∧ stdout w' = stdout w
  end.
Proof.
  unfold prepare_transparent_image.
  assert (∀ c, (let* img := Image_open path in
                let img := if is_RGBA img then img else convert_RGBA img in
                let background := Image_new_RGB (im_size img) c in
                let background := paste_self_masked background img in
                let* temp_file := NamedTemporaryFile in
                Image_save_png background temp_file >> ret temp_file) w
               = (r, w') →
          match r with
          | Raise _ => w' = w
          | Ok t =>
              ∃ rest out,
                tmp_names w = t :: rest ∧ tmp_names w' = rest
                ∧ files w' = <[t := ImageFile out]> (files w)
                ∧ listing w' = listing w ∧ stdout w' = stdout w
          end) as Hbody.
  { intros c. unfold bind at 1.
    pose proof (Image_open_world path w) as Hw.
    destruct (Image_open path w) as [[img|e] w1] eqn:Hopen;
      cbn in Hw; subst w1; [|by intros [= <- <-]].
    cbv zeta. unfold bind at 1. unfold NamedTemporaryFile.
    destruct (tmp_names w) as [|t rest] eqn:Htmp.
    { by intros [= <- <-]. }
    unfold bind, Image_save_png, set_files, ret. cbn.
    intros [= <- <-]. eexists rest, _. cbn.
    split; [done|]. split; [done|]. split; [|done].
    apply insert_insert_eq. }
  destruct bg as [c|].
  - erewrite bind_run by reflexivity. apply Hbody.
  - unfold bind at 1. unfold lift.
    destruct (get_bg_color cfg) as [c|e]; [apply Hbody|].
    by intros [= <- <-].
Qed.

Lemma prepare_transparent_image_outcome_witness :
  prepare_transparent_image cfg_malformed (str "./icon.png") None
    (icon_world transparent_icon)
  = (Raise ValueError, icon_world transparent_icon)
  ∧ icon_world transparent_icon = icon_world transparent_icon.
Proof.
  assert (prepare_transparent_image cfg_malformed (str "./icon.png") None
            (icon_world transparent_icon)
          = (Raise ValueError, icon_world transparent_icon)) as H
    by (vm_compute; reflexivity).
  split; [exact H|].
  apply (prepare_transparent_image_outcome _ _ _ _ _ _ H).
Defined.

(** ** Pasting the avatar *)

(** X17: when the icon is an image, the temporary name is new and
    [paste_image] returns without touching the files, the three lines
    leave the file system exactly as they found it: the temporary file is
    gone. *)
Theorem paste_avatar_cleans_up {term : Terminal} cfg bg w img t rest :
  files w !! str "./icon.png" = Some (ImageFile img) →
  tmp_names w = t :: rest →
  files w !! t = None →
  (∀ w2, prepare_transparent_image cfg (str "./icon.png") (Some bg) w
         = (Ok t, w2) →
         ∃ w3, paste_image t w2 = (Ok tt, w3) ∧ files w3 = files w2) →
  ∃ w', paste_avatar cfg bg w = (Ok tt, w') ∧ files w' = files w.
Proof.
  intros Hicon Htmp Hfresh Hterm.
  destruct (prepare_transparent_image_run cfg w _ img bg t rest Hicon Htmp)
    as (w2 & Hprep & Hout & Hothers).
  destruct (Hterm w2 Hprep) as (w3 & Hpaste & Hkeep).
  unfold paste_avatar.
  erewrite bind_run by exact Hprep.
  erewrite bind_run by exact Hpaste.
  unfold os_unlink. rewrite Hkeep, Hout.
  eexists. split; [reflexivity|]. unfold set_files. cbn [files].
  apply map_eq. intros p. destruct (decide (p = t)) as [->|Hp].
  - by rewrite lookup_delete_eq, Hfresh.
  - by rewrite lookup_delete_ne, Hkeep, Hothers.
Qed.

(** X18: when [paste_image] raises, the three lines raise the same
    exception before [os.unlink] is reached, and the temporary file stays
    behind. *)
Theorem paste_avatar_leaks_on_failure {term : Terminal} cfg bg w img t rest e :
  files w !! str "./icon.png" = Some (ImageFile img) →
  tmp_names w = t :: rest →
  (∀ w2, prepare_transparent_image cfg (str "./icon.png") (Some bg) w
         = (Ok t, w2) →
         ∃ w3, paste_image t w2 = (Raise e, w3) ∧ files w3 = files w2) →
  ∃ w', paste_avatar cfg bg w = (Raise e, w')
        ∧ files w' !! t = Some (ImageFile (composite bg img)).
Proof.
  intros Hicon Htmp Hterm.
  destruct (prepare_transparent_image_run cfg w _ img bg t rest Hicon Htmp)
    as (w2 & Hprep & Hout & _).
  destruct (Hterm w2 Hprep) as (w3 & Hpaste & Hkeep).
  unfold paste_avatar.
  erewrite bind_run by exact Hprep.
  erewrite bind_raise by exact Hpaste.
  exists w3. split; [done|]. by rewrite Hkeep, Hout.
Qed.

Section SampleTerminals.

Lemma paste_avatar_cleans_up_witness :
  ∃ w', paste_avatar (H := reading_terminal) cfg_both (12, 14, 15)
          (icon_world transparent_icon) = (Ok tt, w')
        ∧ files w' = files (icon_world transparent_icon).
Proof.
  apply (paste_avatar_cleans_up (term := reading_terminal) cfg_both
           (12, 14, 15) (icon_world transparent_icon) transparent_icon
           (str "/tmp/tmpk3v9x2.png") []).
  - apply lookup_singleton_eq.
  - reflexivity.
  - by apply lookup_singleton_ne.
  - intros w2 Hprep. vm_compute in Hprep. injection Hprep as <-.
    eexists. split; vm_compute; reflexivity.
Defined.

Lemma paste_avatar_leaks_on_failure_witness :
  ∃ w', paste_avatar (H := failing_terminal) cfg_both (12, 14, 15)
          (icon_world transparent_icon) = (Raise GenericException, w')
        ∧ files w' !! str "/tmp/tmpk3v9x2.png"
          = Some (ImageFile (composite (12, 14, 15) transparent_icon)).
Proof.
  apply (paste_avatar_leaks_on_failure (term := failing_terminal) cfg_both
           (12, 14, 15) (icon_world transparent_icon) transparent_icon
           (str "/tmp/tmpk3v9x2.png") [] GenericException).
  - apply lookup_singleton_eq.
  - reflexivity.
  - intros w2 _. by exists w2.
Defined.

End SampleTerminals.

(** ** More on choosing the encoder *)

Lemma print_same_store m w : same_store w (print m w).2.
Proof. by repeat split. Qed.


(** X20: when both encoders fail, the block raises, and what it raises is
    the fallback's exception, not the primary encoder's: with no frame
    directory it is [FileNotFoundError], whatever the primary encoder
    raised. *)
Theorem generate_gif_fallback_error_escapes {pil : Pillow} {gifos : Gifos}
    (w : world) (e : exn) (w1 : world) :
  gen_gif (print MsgGenerating w).2 = (Raise e, w1) →
  listing w1 !! frames_dir = None →
  ∃ w2, generate_gif w = (Raise FileNotFoundError, w2)
        ∧ files w2 = files w1
        ∧ stdout w2 = stdout w1 ++ [MsgFfmpegFailed e].
Proof.
  intros Hgen Hl. rewrite (generate_gif_unfold w _ w1 Hgen).
  erewrite bind_run by reflexivity.
  unfold create_gif_from_frames.
  erewrite bind_run by reflexivity.
  erewrite bind_raise;
    [|unfold os_listdir; cbn [listing print snd]; by rewrite Hl].
  eexists. split; [reflexivity|]. by split.
Qed.

(** X21: the size check cannot tell a new file from an old one.  If the
    primary encoder returns normally without writing [output.gif] and a
    file of accepted size is there from an earlier run, the block reports
    success and the fallback encoder is not entered. *)
Theorem generate_gif_accepts_stale_output {pil : Pillow} {gifos : Gifos}
    (w w1 : world) (f : file) :
  gen_gif (print MsgGenerating w).2 = (Ok tt, w1) →
  files w1 !! output_file = files w !! output_file →
  files w !! output_file = Some f →
  min_valid_size <= file_bytes f →
  ∃ w2, generate_gif w = (Ok tt, w2)
        ∧ files w2 !! output_file = Some f
        ∧ fallback_calls w2 = fallback_calls w1
        ∧ stdout w2 = stdout w1 ++ [MsgFfmpegOk].
Proof.
  intros Hgen Hsame Hf Hsize. rewrite (generate_gif_unfold w _ w1 Hgen).
  rewrite Hsame, Hf.
  apply size_check_threshold in Hsize. rewrite Hsize.
  eexists. split; [reflexivity|].
  cbn [print snd files fallback_calls stdout]. by rewrite Hsame, Hf.
Qed.

Section SampleEncoders.
#[local] Existing Instance sample_pillow.


Lemma generate_gif_fallback_error_escapes_witness :
  ∃ w2, generate_gif (H0 := raising_ffmpeg) stale_output_world
        = (Raise FileNotFoundError, w2)
        ∧ files w2 = files (print MsgGenerating stale_output_world).2
        ∧ stdout w2 = stdout (print MsgGenerating stale_output_world).2
                      ++ [MsgFfmpegFailed OSError].
Proof.
  apply (generate_gif_fallback_error_escapes (gifos := raising_ffmpeg)
           stale_output_world OSError
           (print MsgGenerating stale_output_world).2).
  - reflexivity.
  - apply lookup_empty.
Defined.

Lemma generate_gif_accepts_stale_output_witness :
  ∃ w2, generate_gif (H0 := idle_ffmpeg) stale_output_world = (Ok tt, w2)
        ∧ files w2 !! output_file = Some (OtherFile 250000)
        ∧ fallback_calls w2
          = fallback_calls (print MsgGenerating stale_output_world).2
        ∧ stdout w2 = stdout (print MsgGenerating stale_output_world).2
                      ++ [MsgFfmpegOk].
Proof.
  apply (generate_gif_accepts_stale_output (gifos := idle_ffmpeg)
           stale_output_world (print MsgGenerating stale_output_world).2
           (OtherFile 250000)).
  - reflexivity.
  - reflexivity.
  - apply lookup_singleton_eq.
  - vm_compute. discriminate.
Defined.

End SampleEncoders.

(** ** Staging the settings *)

Example stage_sample :
  (stage_environment sample_general ∅ ∅).2 !! str "GIFOS_GENERAL_DEBUG"
  = Some (str "true").
Proof. vm_compute. reflexivity. Qed.

Example stage_sample_bad :
  (stage_environment sample_general_bad ∅ ∅).1 = Raise TypeError.
Proof. vm_compute. reflexivity. Qed.

Lemma setenv_all_ok l env env' :
  setenv_all l env = (Ok tt, env') →
  Forall (λ kv, storable kv.2) l
  ∧ env' = foldl (λ e kv, <[kv.1 := py_str kv.2]> e) env l.
Proof.
  revert env. induction l as [|[key v] l IH]; intros env; cbn.
  - intros [= <-]. by split.
  - destruct v as [b|s|text]; cbn; try done.
    destruct (has_null s) eqn:Hnull; [done|].
    intros Hrun. destruct (IH _ Hrun) as [Hl ->].
    split; [|done]. constructor; [|done]. by exists s.
Qed.

Lemma setenv_all_storable l env :
  Forall (λ kv, storable kv.2) l → ∃ env', setenv_all l env = (Ok tt, env').
Proof.
  intros Hl. revert env. induction Hl as [|[key v] l (s & Hv & Hnull) _ IH];
    intros env; cbn.
  - by exists env.
  - cbn in Hv. subst v. cbn. rewrite Hnull. apply IH.
Qed.

Lemma foldl_insert_lookup (l : list (pystr * toml))
    (env : gmap pystr pystr) k :
  NoDup l.*1 →
  foldl (λ e kv, <[kv.1 := py_str kv.2]> e) env l !! k
  = match list_find (λ kv, kv.1 = k) l with
    | Some (_, kv) => Some (py_str kv.2)
    | None => env !! k
    end.
Proof.
  revert env. induction l as [|[key v] l IH]; intros env Hnd; [done|].
  apply NoDup_cons in Hnd as [Hkey Hnd]. cbn [foldl]. rewrite IH by done.
  cbn [list_find]. cbn [fst snd].
  destruct (decide (key = k)) as [->|Hne]; cbn.
  - destruct (list_find _ l) as [[i kv]|] eqn:Hfind; cbn.
    + apply list_find_Some in Hfind as (Hi & Hk & _).
      exfalso. apply Hkey. apply list_elem_of_fmap. exists kv.
      split; [done|]. by eapply list_elem_of_lookup_2.
    + by rewrite lookup_insert_eq.
  - destruct (list_find _ l) as [[i kv]|]; cbn; [done|].
    by rewrite lookup_insert_ne.
Qed.

Lemma staged_names_keys general files :
  (staged general files).*1 = staged_names.
Proof. reflexivity. Qed.

Lemma staged_names_NoDup : NoDup staged_names.
Proof. apply (bool_decide_unpack _). vm_compute. reflexivity. Qed.

Lemma foldl_insert_lookup_elem (l : list (pystr * toml))
    (env : gmap pystr pystr) k v :
  NoDup l.*1 → (k, v) ∈ l →
  foldl (λ e kv, <[kv.1 := py_str kv.2]> e) env l !! k = Some (py_str v).
Proof.
  intros Hnd Hin. rewrite foldl_insert_lookup by done.
  destruct (list_find _ l) as [[i [k' v']]|] eqn:Hfind.
  - apply list_find_Some in Hfind as (Hi & Hk & _). cbn in Hk. subst k'.
    cbn. do 2 f_equal.
    apply list_elem_of_lookup in Hin as [j Hj].
    assert (i = j) as ->.
    { eapply NoDup_lookup; [exact Hnd|..];
        rewrite list_lookup_fmap; [by rewrite Hi|by rewrite Hj]. }
    congruence.
  - apply list_find_None in Hfind. rewrite Forall_forall in Hfind.
    by destruct (Hfind _ Hin).
Qed.

Lemma foldl_insert_lookup_other (l : list (pystr * toml))
    (env : gmap pystr pystr) k :
  NoDup l.*1 → k ∉ l.*1 →
  foldl (λ e kv, <[kv.1 := py_str kv.2]> e) env l !! k = env !! k.
Proof.
  intros Hnd Hout. rewrite foldl_insert_lookup by done.
  destruct (list_find _ l) as [[i [k' v']]|] eqn:Hfind; [|done].
  apply list_find_Some in Hfind as (Hi & Hk & _). cbn in Hk. subst k'.
  exfalso. apply Hout. apply list_elem_of_fmap. exists (k, v').
  split; [done|]. by eapply list_elem_of_lookup_2.
Qed.

(** X22: when the staging succeeds, all nine variables are set, every
    other variable of the environment is as before, and the three flags
    hold lower-case text. *)
Theorem stage_environment_sets_all (general files : gmap pystr toml)
    (env env' : gmap pystr pystr) :
  stage_environment general files env = (Ok tt, env') →
  (∀ k, k ∈ staged_names → is_Some (env' !! k))
  ∧ (∀ k, k ∉ staged_names → env' !! k = env !! k)
  ∧ (∀ k, k ∈ flag_names → ∃ s, env' !! k = Some s ∧ lower s = s).
Proof.
  intros Hrun. apply setenv_all_ok in Hrun as [_ ->].
  pose proof staged_names_NoDup as Hnd.
  rewrite <- (staged_names_keys general files) in Hnd.
  split; [|split].
  - intros k Hk. rewrite <- (staged_names_keys general files) in Hk.
    apply list_elem_of_fmap in Hk as ([k' v] & -> & Hin).
    rewrite (foldl_insert_lookup_elem _ _ _ v) by done. by eexists.
  - intros k Hk. by apply foldl_insert_lookup_other.
  - intros k Hk.
    assert (∃ v, (k, lower_text v) ∈ staged general files) as [v Hin].
    { unfold flag_names in Hk. unfold staged.
      repeat (apply elem_of_cons in Hk as [->|Hk]);
        [eexists; apply list_elem_of_here
        |eexists; do 2 apply list_elem_of_further; apply list_elem_of_here
        |eexists; do 3 apply list_elem_of_further; apply list_elem_of_here
        |by apply elem_of_nil in Hk]. }
    rewrite (foldl_insert_lookup_elem _ _ _ _ Hnd Hin).
    eexists. split; [reflexivity|]. apply lower_idemp.
Qed.

Lemma stage_environment_sets_all_witness :
  (∀ k, k ∈ staged_names →
        is_Some ((stage_environment sample_general ∅ ∅).2 !! k))
  ∧ (∀ k, k ∉ staged_names →
          (stage_environment sample_general ∅ ∅).2 !! k
          = (∅ : gmap pystr pystr) !! k)
  ∧ (∀ k, k ∈ flag_names →
          ∃ s, (stage_environment sample_general ∅ ∅).2 !! k = Some s
               ∧ lower s = s).
Proof.
  apply (stage_environment_sets_all sample_general ∅ ∅).
  vm_compute. reflexivity.
Defined.

Lemma setenv_all_error l env e env' :
  setenv_all l env = (Raise e, env') → e = TypeError ∨ e = ValueError.
Proof.
  revert env. induction l as [|[key v] l IH]; intros env; cbn; [done|].
  destruct v as [b|s|text]; cbn; try (intros [= <- <-]; by left).
  destruct (has_null s); [intros [= <- <-]; by right|]. apply IH.
Qed.

(** X23: the staging succeeds exactly when every value it stores is a
    string without a null character: a directly staged setting that is
    present must be such a string.  When it fails, it fails with
    [TypeError] or [ValueError]. *)
Theorem stage_environment_succeeds_iff (general files : gmap pystr toml)
    (env : gmap pystr pystr) :
  ((∃ env', stage_environment general files env = (Ok tt, env'))
   ↔ Forall (λ kv, storable kv.2) (staged general files))
  ∧ (∀ e env', stage_environment general files env = (Raise e, env') →
               e = TypeError ∨ e = ValueError).
Proof.
  unfold stage_environment. split; [split|].
  - intros [env' Hrun]. by apply setenv_all_ok in Hrun as [? _].
  - apply setenv_all_storable.
  - intros e env'. apply setenv_all_error.
Qed.

(** X24: when the staging succeeds, the colour scheme handed to the
    library in [GIFOS_GENERAL_COLOR_SCHEME] is the scheme [get_bg_color]
    looks up, so the avatar background and the terminal use the same
    scheme. *)
Theorem staged_color_scheme_agrees (settings files : gmap pystr toml)
    (env env' : gmap pystr pystr) (local library : color_table) :
  stage_environment settings files env = (Ok tt, env') →
  env' !! str "GIFOS_GENERAL_COLOR_SCHEME"
  = Some (color_scheme {| general := string_entries settings;
                          local_colors := local;
                          gifos_colors := library |}).
Proof.
  intros Hrun. apply setenv_all_ok in Hrun as [Hok ->].
  pose proof staged_names_NoDup as Hnd.
  rewrite <- (staged_names_keys settings files) in Hnd.
  rewrite (foldl_insert_lookup_elem _ _ _
             (default (TomlStr (str "yoru")) (settings !! str "color_scheme"))
             Hnd)
    by (do 5 apply list_elem_of_further; apply list_elem_of_here).
  f_equal. unfold color_scheme, string_entries. cbn [general].
  rewrite lookup_omap.
  rewrite Forall_forall in Hok.
  destruct (Hok (str "GIFOS_GENERAL_COLOR_SCHEME",
                 default (TomlStr (str "yoru"))
                   (settings !! str "color_scheme")))
    as (s & Hs & _).
  { do 5 apply list_elem_of_further. apply list_elem_of_here. }
  cbn [snd] in Hs.
  destruct (settings !! str "color_scheme") as [[b|s'|text]|]; cbn in *;
    congruence.
Qed.

Lemma stage_environment_succeeds_iff_witness :
  (∃ env', stage_environment sample_general ∅ ∅ = (Ok tt, env'))
  ∧ (stage_environment sample_general_bad ∅ ∅).1 = Raise TypeError
  ∧ (TypeError = TypeError ∨ TypeError = ValueError).
Proof.
  split; [|split; [vm_compute; reflexivity|]].
  - apply (proj1 (stage_environment_succeeds_iff sample_general ∅ ∅)).
    repeat constructor; eexists; (split; [vm_compute; reflexivity|reflexivity]).
  - apply (proj2 (stage_environment_succeeds_iff sample_general_bad ∅ ∅)
             TypeError (stage_environment sample_general_bad ∅ ∅).2).
    vm_compute. reflexivity.
Defined.

Lemma staged_color_scheme_agrees_witness :
  (stage_environment sample_general ∅ ∅).2 !! str "GIFOS_GENERAL_COLOR_SCHEME"
  = Some (color_scheme {| general := string_entries sample_general;
                          local_colors := ∅;
                          gifos_colors := ∅ |}).
Proof.
  apply (staged_color_scheme_agrees sample_general ∅ ∅ _ ∅ ∅).
  vm_compute. reflexivity.
Defined.

(** ** The language lines *)

(** X25: the five language lines never raise [IndexError]: they show the
    first five names and are empty from the end of the list on. *)
Theorem language_slots_padded {B} (languages_sorted : list (pystr * B)) :
  language_slots languages_sorted
  = Ok (take 5 (map fst languages_sorted)
        ++ replicate (5 - length languages_sorted) []).
Proof.
  destruct languages_sorted as [|[a ?] [|[b ?] [|[c ?] [|[d ?] [|[e ?] l]]]]];
    reflexivity.
Qed.

Example language_slots_two :
  language_slots [(str "Python", 61); (str "Shell", 39)]
  = Ok [str "Python"; str "Shell"; []; []; []].
Proof. reflexivity. Qed.
